(** * url.py: an in-memory URL shortener with an LRU cache

    Shallow embedding of [src/url.py].  The three Python classes become
    three modules of state-passing functions:

    - [LRUCache]: the dictionary [cache] from keys to node references and
      the doubly linked list of [Node] objects between the two dummy nodes
      [head] and [tail].  Node objects are mutable and shared between the
      dictionary and the list, so they live in an explicit store ([heap], a
      list indexed by node reference) and the methods update it in place.
    - [URLDatabase]: the three dictionaries and the counter.
    - [URLShortener]: the public operations.

    Conventions.  A method returns [None] where the Python code would not
    return normally: an attribute access on [None], a missing dictionary
    key, a subscript on [None], or -- for the one unbounded [while True]
    loop -- when the iteration bound handed to the model is used up.
    [time.time()] is an input: every clock reading is an argument of the
    operation that performs it. *)

From stdpp Require Import gmap strings list fin_maps.
From Stdlib Require Import ZArith NArith Ascii.

Local Open Scope string_scope.

(** ** Python truthiness of the values the code branches on *)

(** [if s:] for [s] a string or [None]. *)
Definition truthy_str (s : option string) : bool :=
  match s with
  | Some EmptyString => false
  | Some _ => true
  | None => false
  end.

(** [if n:] for [n] an integer or [None]. *)
Definition truthy_int (n : option Z) : bool :=
  match n with
  | Some z => negb (z =? 0)%Z
  | None => false
  end.

(** ** class Node *)

Module Node.
(** [key] and [value] are [None] in the two dummy nodes; [prev] and
    [next] are references into the node store, or [None]. *)
Record t := mk {
  key : option string;
  value : option string;
  prev : option nat;
  next : option nat
}.

(** [Node(key, value)] *)
Definition __init__ (key value : option string) : t :=
  {| key := key; value := value; prev := None; next := None |}.

Definition set_prev (p : option nat) (n : t) : t :=
  {| key := key n; value := value n; prev := p; next := next n |}.

Definition set_next (x : option nat) (n : t) : t :=
  {| key := key n; value := value n; prev := prev n; next := x |}.
End Node.

(** ** class LRUCache *)

Module LRUCache.
Record t := mk {
  capacity : Z;
  cache : gmap string nat;  (* key -> reference of its node *)
  head : nat;               (* reference of the dummy head *)
  tail : nat;               (* reference of the dummy tail *)
  heap : list Node.t        (* the node objects, by reference *)
}.

Definition with_heap (self : t) (h : list Node.t) : t :=
  {| capacity := capacity self; cache := cache self;
     head := head self; tail := tail self; heap := h |}.

Definition with_cache (self : t) (c : gmap string nat) : t :=
  {| capacity := capacity self; cache := c;
     head := head self; tail := tail self; heap := heap self |}.

(** [r.prev = v]; fails when [r] is [None]. *)
Definition assign_prev (h : list Node.t) (r v : option nat) : option (list Node.t) :=
  i ← r; n ← h !! i; Some (<[i := Node.set_prev v n]> h).

(** [r.next = v]; fails when [r] is [None]. *)
Definition assign_next (h : list Node.t) (r v : option nat) : option (list Node.t) :=
  i ← r; n ← h !! i; Some (<[i := Node.set_next v n]> h).

(** [LRUCache(capacity)]: the head is node 0, the tail node 1. *)
Definition __init__ (capacity : Z) : t :=
  {| capacity := capacity; cache := ∅; head := 0; tail := 1;
     heap := [ Node.mk None None None (Some 1);
               Node.mk None None (Some 0) None ] |}.

(** [node.prev.next = node.next; node.next.prev = node.prev] *)
Definition _remove (self : t) (node : nat) : option t :=
  n ← heap self !! node;
  h1 ← assign_next (heap self) (Node.prev n) (Node.next n);
  n1 ← h1 !! node;
  h2 ← assign_prev h1 (Node.next n1) (Node.prev n1);
  Some (with_heap self h2).

(** [node.prev = self.head; node.next = self.head.next;
     self.head.next.prev = node; self.head.next = node] *)
Definition _add (self : t) (node : nat) : option t :=
  h1 ← assign_prev (heap self) (Some node) (Some (head self));
  hd1 ← h1 !! head self;
  h2 ← assign_next h1 (Some node) (Node.next hd1);
  hd2 ← h2 !! head self;
  h3 ← assign_prev h2 (Node.next hd2) (Some node);
  h4 ← assign_next h3 (Some (head self)) (Some node);
  Some (with_heap self h4).

Definition get (self : t) (key : string) : option (t * option string) :=
  match cache self !! key with
  | Some node =>
      self1 ← _remove self node;
      self2 ← _add self1 node;
      n ← heap self2 !! node;
      Some (self2, Node.value n)
  | None => Some (self, None)
  end.

Definition put (self : t) (key value : string) : option t :=
  self1 ← match cache self !! key with
          | Some old => _remove self old
          | None => Some self
          end;
  (* node = Node(key, value): a new object, with a new reference *)
  let node := length (heap self1) in
  let self2 := with_heap self1 (heap self1 ++ [Node.__init__ (Some key) (Some value)]) in
  self3 ← _add self2 node;
  let self4 := with_cache self3 (<[key := node]> (cache self3)) in
  if (capacity self4 <? Z.of_nat (size (cache self4)))%Z then
    tl ← heap self4 !! tail self4;
    lru_node ← Node.prev tl;
    self5 ← _remove self4 lru_node;
    lru ← heap self5 !! lru_node;
    k ← Node.key lru;
    _ ← cache self5 !! k;   (* [del] of a missing key raises *)
    Some (with_cache self5 (delete k (cache self5)))
  else Some self4.

(** Observations used to state properties (not methods of the class). *)

(** The key and value stored in the node of reference [i]. *)
Definition entry (h : list Node.t) (i : nat) : option (string * string) :=
  n ← h !! i; k ← Node.key n; v ← Node.value n; Some (k, v).

(** [self.cache[key].value] without moving the node. *)
Definition peek (self : t) (key : string) : option string :=
  i ← cache self !! key; n ← heap self !! i; Node.value n.

(** Walk [next] links from node [cur] up to the tail, at most [fuel]
    steps, collecting the nodes' references. *)
Fixpoint walk (fuel : nat) (self : t) (cur : nat) : list nat :=
  match fuel with
  | 0 => []
  | S fuel' =>
      if decide (cur = tail self) then []
      else cur :: match heap self !! cur ≫= Node.next with
                  | Some nxt => walk fuel' self nxt
                  | None => []
                  end
  end.

(** The entries of the linked list, most recently used first. *)
Definition to_list (self : t) : list (string * string) :=
  match heap self !! head self ≫= Node.next with
  | Some first => omap (entry (heap self)) (walk (length (heap self)) self first)
  | None => []
  end.

Definition keys (self : t) : list string := (to_list self).*1.
End LRUCache.

(** ** class URLDatabase *)

Module URLDatabase.
(** The dictionary stored in [self.stats[short_code]]. *)
Record Stats := mkStats {
  created_at : Z;
  expires_at : option Z;
  visit_count : Z
}.

Record t := mk {
  url_to_code : gmap string string;
  code_to_url : gmap string string;
  stats : gmap string Stats;
  counter : N   (* starts at 0 and is only ever incremented *)
}.

Definition __init__ : t :=
  {| url_to_code := ∅; code_to_url := ∅; stats := ∅; counter := 0 |}.

(** [now] is the value of [self._current_timestamp()]. *)
Definition store (self : t) (now : Z) (short_code long_url : string)
    (expiry : option Z) : t :=
  {| url_to_code := <[long_url := short_code]> (url_to_code self);
     code_to_url := <[short_code := long_url]> (code_to_url self);
     stats := <[short_code := {| created_at := now; expires_at := expiry;
                                 visit_count := 0 |}]> (stats self);
     counter := counter self |}.

Definition get_url (self : t) (short_code : string) : option string :=
  code_to_url self !! short_code.

Definition get_code (self : t) (long_url : string) : option string :=
  url_to_code self !! long_url.

Definition increment_visits (self : t) (short_code : string) : t :=
  match stats self !! short_code with
  | Some st =>
      {| url_to_code := url_to_code self; code_to_url := code_to_url self;
         stats := <[short_code := {| created_at := created_at st;
                                     expires_at := expires_at st;
                                     visit_count := visit_count st + 1 |}]>
                    (stats self);
         counter := counter self |}
  | None => self
  end.

Definition get_stats (self : t) (short_code : string) : option Stats :=
  stats self !! short_code.

(** [self.counter += 1] *)
Definition bump_counter (self : t) : t :=
  {| url_to_code := url_to_code self; code_to_url := code_to_url self;
     stats := stats self; counter := counter self + 1 |}.
End URLDatabase.

(** ** String helpers of the Python standard library *)

(** [c in s] for a character [c]. *)
Fixpoint char_in (c : ascii) (s : string) : bool :=
  match s with
  | EmptyString => false
  | String c' s' => Ascii.eqb c c' || char_in c s'
  end.

(** [all(p(c) for c in s)] *)
Fixpoint all_chars (p : ascii → bool) (s : string) : bool :=
  match s with
  | EmptyString => true
  | String c s' => p c && all_chars p s'
  end.

(** [s.split(sep)] for a one-character separator.  The recursive call never
    returns the empty list (lemma [split_cons_ne]); the last branch is there
    for the match to be total. *)
Fixpoint split (sep : ascii) (s : string) : list string :=
  match s with
  | EmptyString => [EmptyString]
  | String c s' =>
      if Ascii.eqb c sep then EmptyString :: split sep s'
      else match split sep s' with
           | p :: ps => String c p :: ps
           | [] => [String c EmptyString]
           end
  end.

(** [s.startswith(p)] *)
Definition startswith (s p : string) : bool := String.prefix p s.

(** [s.rjust(width, fill)] *)
Definition rjust (width : nat) (fill : ascii) (s : string) : string :=
  String.string_of_list_ascii (replicate (width - String.length s) fill) +:+ s.

(** ** class URLShortener *)

Module URLShortener.
Record t := mk {
  db : URLDatabase.t;
  cache : LRUCache.t
}.

Definition charset : string :=
  "0123456789abcdefghijklmnopqrstuvwxyzABCDEFGHIJKLMNOPQRSTUVWXYZ".

Definition __init__ (cache_size : Z) : t :=
  {| db := URLDatabase.__init__; cache := LRUCache.__init__ cache_size |}.

(** [self.charset[rem]]; the index is a remainder modulo the length of
    [charset], hence in range (lemma [charset_get] below). *)
Definition charset_at (rem : N) : ascii :=
  default "0"%char (String.get (N.to_nat rem) charset).

(** The loop [while num: num, rem = divmod(num, base); result.append(..)].
    [num] at least halves in every iteration, so the number of its binary
    digits bounds the iterations (lemma [_encode_loop_fuel]). *)
Fixpoint _encode_loop (fuel : nat) (num : N) (result : list ascii) : list ascii :=
  if (num =? 0)%N then result
  else match fuel with
       | 0 => result
       | S fuel' =>
           let base := N.of_nat (String.length charset) in
           let num' := (num / base)%N in
           let rem := (num mod base)%N in
           _encode_loop fuel' num' (result ++ [charset_at rem])
       end.

Definition _encode_base62 (num : N) : string :=
  if (num =? 0)%N then String (charset_at 0) EmptyString
  else String.string_of_list_ascii (rev (_encode_loop (N.size_nat num) num [])).

(** The [while True] loop of [_generate_code], run for at most [fuel]
    iterations. *)
Fixpoint _generate_code (fuel : nat) (self : t) (length : nat) : option (string * t) :=
  match fuel with
  | 0 => None
  | S fuel' =>
      let self1 := {| db := URLDatabase.bump_counter (db self); cache := cache self |} in
      let num := URLDatabase.counter (db self1) in
      let code := rjust length "0" (_encode_base62 num) in
      if negb (truthy_str (URLDatabase.get_url (db self1) code)) then Some (code, self1)
      else _generate_code fuel' self1 length
  end.

Definition _is_valid_url (url : string) : bool :=
  if (2048 <? String.length url)%nat then false
  else if negb (startswith url "http://" || startswith url "https://") then false
  else
    let parts := split "/" url in
    if (length parts <? 3)%nat then false
    else match parts !! 2 with
         | Some domain => if negb (char_in "." domain) then false else true
         | None => false
         end.

Definition _is_valid_code (code : string) : bool :=
  if negb (String.length code =? 7)%nat then false
  else all_chars (λ c, char_in c charset) code.

(** [now_expiry] is the clock reading of line 125, [now_store] the one
    taken inside [self.db.store].  [fuel] bounds the generation loop. *)
Definition create_short_url (fuel : nat) (now_expiry now_store : Z) (self : t)
    (long_url : string) (custom_code : option string) (expiry_days : option Z)
    : option (t * (bool * string)) :=
  if negb (_is_valid_url long_url) then Some (self, (false, "Invalid URL format"))
  else
    let existing_code := URLDatabase.get_code (db self) long_url in
    if truthy_str existing_code then Some (self, (true, default "" existing_code))
    else
      let chosen :=
        if truthy_str custom_code then
          let code := default "" custom_code in
          if negb (_is_valid_code code) then inl "Invalid custom code"
          else if truthy_str (URLDatabase.get_url (db self) code)
               then inl "Custom code already in use"
               else inr (Some (code, self))
        else inr (_generate_code fuel self 7) in
      match chosen with
      | inl msg => Some (self, (false, msg))
      | inr None => None
      | inr (Some (short_code, self1)) =>
          let expiry :=
            if truthy_int expiry_days
            then Some (now_expiry + default 0 expiry_days * 24 * 60 * 60)%Z
            else None in
          let db2 := URLDatabase.store (db self1) now_store short_code long_url expiry in
          cache2 ← LRUCache.put (cache self1) short_code long_url;
          Some ({| db := db2; cache := cache2 |}, (true, short_code))
      end.

(** [now] is the value of [self._current_timestamp()] on line 148. *)
Definition get_long_url (now : Z) (self : t) (short_code : string)
    : option (t * (bool * string)) :=
  '(cache1, cached_url) ← LRUCache.get (cache self) short_code;
  if truthy_str cached_url then
    Some ({| db := URLDatabase.increment_visits (db self) short_code; cache := cache1 |},
          (true, default "" cached_url))
  else
    let self1 := {| db := db self; cache := cache1 |} in
    let long_url := URLDatabase.get_url (db self1) short_code in
    if negb (truthy_str long_url) then Some (self1, (false, "URL not found"))
    else
      stats ← URLDatabase.get_stats (db self1) short_code;
      if truthy_int (URLDatabase.expires_at stats)
         && (default 0 (URLDatabase.expires_at stats) <? now)%Z
      then Some (self1, (false, "URL has expired"))
      else
        let db2 := URLDatabase.increment_visits (db self1) short_code in
        cache2 ← LRUCache.put (cache self1) short_code (default "" long_url);
        Some ({| db := db2; cache := cache2 |}, (true, default "" long_url)).

Definition get_url_stats (self : t) (short_code : string)
    : bool * (URLDatabase.Stats + string) :=
  match URLDatabase.get_stats (db self) short_code with
  | None => (false, inr "URL not found")
  | Some stats => (true, inl stats)
  end.
End URLShortener.

Local Close Scope string_scope.

(** * Specification vocabulary

    Everything below is about the embedding above: the representation
    invariant of the linked list, a list-level account of what [get] and
    [put] do, the value of a base-62 code, the reachable states of a
    shortener and the invariant they satisfy. *)

(** ** The linked list as a sequence of node references *)

(** [a.next] and [a.prev] for the node of reference [a]. *)
Definition nx (h : list Node.t) (a : nat) : option nat := h !! a ≫= Node.next.
Definition pv (h : list Node.t) (a : nat) : option nat := h !! a ≫= Node.prev.

(** Consecutive nodes of [ch] point at each other. *)
Definition linked (h : list Node.t) (ch : list nat) : Prop :=
  ∀ i a b, ch !! i = Some a → ch !! S i = Some b →
    nx h a = Some b ∧ pv h b = Some a.

(** The list from the dummy head to the dummy tail; [l] gives, most
    recently used first, the reference, key and value of the real nodes. *)
Definition chain (c : LRUCache.t) (l : list (nat * (string * string))) : list nat :=
  LRUCache.head c :: l.*1 ++ [LRUCache.tail c].

(** The nodes of [l] are distinct, doubly linked between head and tail,
    and hold the keys and values [l] says. *)
Record Wf (c : LRUCache.t) (l : list (nat * (string * string))) : Prop := {
  wf_nodup : NoDup (chain c l);
  wf_linked : linked (LRUCache.heap c) (chain c l);
  wf_entry : ∀ i e, (i, e) ∈ l → LRUCache.entry (LRUCache.heap c) i = Some e
}.

(** Representation invariant of [LRUCache]: the list is well formed and the
    dictionary maps exactly the keys of the list to their nodes. *)
Record Rep (c : LRUCache.t) (l : list (nat * (string * string))) : Prop := {
  rep_wf : Wf c l;
  rep_cache : ∀ k i, LRUCache.cache c !! k = Some i ↔ ∃ v, (i, (k, v)) ∈ l;
  rep_size : size (LRUCache.cache c) = length l
}.

(** ** What [get] and [put] do to the list of entries *)

Definition remove_key (k : string) (kvs : list (string * string)) : list (string * string) :=
  filter (λ e, e.1 ≠ k) kvs.

Definition lru_get (kvs : list (string * string)) (k : string)
    : list (string * string) * option string :=
  match list_find (λ e, e.1 = k) kvs with
  | Some (_, e) => (e :: remove_key k kvs, Some e.2)
  | None => (kvs, None)
  end.

Definition lru_put (cap : Z) (kvs : list (string * string)) (k v : string)
    : list (string * string) :=
  let kvs1 := (k, v) :: remove_key k kvs in
  if (cap <? Z.of_nat (length kvs1))%Z then take (length kvs1 - 1) kvs1 else kvs1.

(** ** Sequences of cache operations *)

Inductive cache_op :=
  | Get (key : string)
  | Put (key value : string).

(** [touch k r]: the keys [r], ordered by last use, after [k] is used. *)
Definition touch (k : string) (r : list string) : list string :=
  k :: filter (λ k', k' ≠ k) r.

(** Run [ops] on the cache [c], keeping in [r] the keys touched so far --
    by a [put], or by a [get] that returned a value -- ordered by last
    touch. *)
Fixpoint run_ops (ops : list cache_op) (c : LRUCache.t) (r : list string)
    : option (LRUCache.t * list string) :=
  match ops with
  | [] => Some (c, r)
  | Get k :: ops =>
      '(c', res) ← LRUCache.get c k;
      run_ops ops c' (if res is Some _ then touch k r else r)
  | Put k v :: ops =>
      c' ← LRUCache.put c k v;
      run_ops ops c' (touch k r)
  end.

(** ** Base-62 codes as numbers *)

(** The keys that [ops] touch, ordered by last touch, on a cache of
    capacity [C] whose touched keys so far are [r].  This is defined from
    the operations alone: a [put] touches its key; a [get] touches its key
    when the key is among the [C] most recently touched ones, and touches
    nothing otherwise. *)
Fixpoint recency (C : nat) (ops : list cache_op) (r : list string) : list string :=
  match ops with
  | [] => r
  | Get k :: ops => recency C ops (if decide (k ∈ take C r) then touch k r else r)
  | Put k v :: ops => recency C ops (touch k r)
  end.

(** Position of [c] in [s] (the length of [s] when absent). *)
Fixpoint char_index (c : ascii) (s : string) : nat :=
  match s with
  | EmptyString => 0
  | String c' s' => if Ascii.eqb c c' then 0 else S (char_index c s')
  end.

(** The value of a base-62 digit. *)
Definition digit (c : ascii) : N := N.of_nat (char_index c URLShortener.charset).

(** The number a string of digits denotes, most significant digit first. *)
Definition decode (s : string) : N :=
  fold_left (λ acc c, acc * 62 + digit c)%N (String.list_ascii_of_string s) 0%N.

(** The code the generation loop tries for sequence number [n]. *)
Definition code_of (n : N) : string := rjust 7 "0"%char (URLShortener._encode_base62 n).

(** Value of a list of digits, least significant first. *)
Definition val_lsb (ds : list ascii) : N :=
  foldr (λ c acc, digit c + 62 * acc)%N 0%N ds.

(** ** Reachable states and their invariant *)

(** One call of a public operation of [URLShortener]. *)
Inductive step : URLShortener.t → URLShortener.t → Prop :=
  | step_create fuel now_expiry now_store s long_url custom_code expiry_days s' r :
      URLShortener.create_short_url fuel now_expiry now_store s
        long_url custom_code expiry_days = Some (s', r) →
      step s s'
  | step_resolve now s short_code s' r :
      URLShortener.get_long_url now s short_code = Some (s', r) →
      step s s'
  | step_stats s short_code r :
      URLShortener.get_url_stats s short_code = r →
      step s s.

(** The states a shortener can be in: those that calls of the public
    operations lead to from a new [URLShortener(cache_size)]. *)
Definition reachable (s : URLShortener.t) : Prop :=
  ∃ cache_size, rtc step (URLShortener.__init__ cache_size) s.

(** The cache is a well-formed LRU list whose entries agree with the store;
    the two dictionaries of the store are inverse to each other; stored URLs
    are valid and stored codes non-empty; every stored code has
    statistics. *)
Record Inv (s : URLShortener.t) : Prop := {
  inv_cache : ∃ l, Rep (URLShortener.cache s) l
    ∧ ∀ k v, (k, v) ∈ l.*2 →
        URLDatabase.code_to_url (URLShortener.db s) !! k = Some v;
  inv_bij : ∀ u c,
    URLDatabase.url_to_code (URLShortener.db s) !! u = Some c
    ↔ URLDatabase.code_to_url (URLShortener.db s) !! c = Some u;
  inv_valid : ∀ u c,
    URLDatabase.url_to_code (URLShortener.db s) !! u = Some c →
    URLShortener._is_valid_url u = true ∧ c ≠ EmptyString;
  inv_stats : ∀ c,
    is_Some (URLDatabase.stats (URLShortener.db s) !! c)
    ↔ is_Some (URLDatabase.code_to_url (URLShortener.db s) !! c)
}.

(** The expiry time [create_short_url] computes. *)
Definition expiry_of (now_expiry : Z) (expiry_days : option Z) : option Z :=
  if truthy_int expiry_days
  then Some (now_expiry + default 0 expiry_days * 24 * 60 * 60)%Z
  else None.

(** [s'] is [s] with a new record for [code] and [url] written through. *)
Record created (now_store : Z) (expiry : option Z) (s s' : URLShortener.t)
    (url code : string) : Prop := {
  cr_fresh_url : URLDatabase.url_to_code (URLShortener.db s) !! url = None;
  cr_fresh_code : URLDatabase.code_to_url (URLShortener.db s) !! code = None;
  cr_code : code ≠ EmptyString;
  cr_url_to_code : URLDatabase.url_to_code (URLShortener.db s')
    = <[url := code]> (URLDatabase.url_to_code (URLShortener.db s));
  cr_code_to_url : URLDatabase.code_to_url (URLShortener.db s')
    = <[code := url]> (URLDatabase.code_to_url (URLShortener.db s));
  cr_stats : URLDatabase.stats (URLShortener.db s')
    = <[code := URLDatabase.mkStats now_store expiry 0]>
        (URLDatabase.stats (URLShortener.db s));
  cr_counter : (URLDatabase.counter (URLShortener.db s)
                ≤ URLDatabase.counter (URLShortener.db s'))%N;
  cr_cache : LRUCache.put (URLShortener.cache s) code url
    = Some (URLShortener.cache s')
}.

(** A stored record stays: later calls change its visit count only. *)
Definition same_record (st st' : URLDatabase.Stats) : Prop :=
  URLDatabase.created_at st' = URLDatabase.created_at st
  ∧ URLDatabase.expires_at st' = URLDatabase.expires_at st.

(** ** Concrete states *)

(** The state after one [create_short_url] whose two clock readings are
    both [now]. *)
Definition after_create (fuel : nat) (now : Z) (s : URLShortener.t) (long_url : string)
    (custom_code : option string) (expiry_days : option Z) : URLShortener.t :=
  match URLShortener.create_short_url fuel now now s long_url custom_code expiry_days with
  | Some (s', _) => s'
  | None => s
  end.

(** A cache of capacity 1; one URL shortened at time 0, expiring in a day. *)
Definition demo_a : URLShortener.t :=
  after_create 1 0 (URLShortener.__init__ 1) "https://example.com/a" None (Some 1%Z).

(** Then a second URL under a custom code, which evicts the first code. *)
Definition demo_ab : URLShortener.t :=
  after_create 1 10 demo_a "https://example.com/b" (Some "ABCDEFG"%string) None.

(** A store whose counter has reached [62^7 - 1]. *)
Definition late_store : URLShortener.t :=
  {| URLShortener.db :=
       {| URLDatabase.url_to_code := ∅; URLDatabase.code_to_url := ∅;
          URLDatabase.stats := ∅; URLDatabase.counter := 62 ^ 7 - 1 |};
     URLShortener.cache := LRUCache.__init__ 1000 |}.

(** The [i]-th of a family of distinct valid URLs. *)
Definition url_of (i : N) : string := "http://a.b/" +:+ code_of i.

(** The caches that calls of [get] and [put] lead to from a new
    [LRUCache(capacity)]. *)
Inductive cache_reachable : LRUCache.t → Prop :=
  | cache_reachable_init capacity : cache_reachable (LRUCache.__init__ capacity)
  | cache_reachable_get c key c' res :
      cache_reachable c → LRUCache.get c key = Some (c', res) → cache_reachable c'
  | cache_reachable_put c key value c' :
      cache_reachable c → LRUCache.put c key value = Some c' → cache_reachable c'.

(** Two concrete caches of capacity 2. *)
Definition cache_a : LRUCache.t :=
  default (LRUCache.__init__ 2) (LRUCache.put (LRUCache.__init__ 2) "a" "1").

Definition cache_ab : LRUCache.t :=
  default cache_a (LRUCache.put cache_a "b" "2").

(** A stored record after later calls: same creation and expiry times, and
    a visit count that has not gone down. *)
Definition record_persists (st st' : URLDatabase.Stats) : Prop :=
  URLDatabase.created_at st' = URLDatabase.created_at st
  ∧ URLDatabase.expires_at st' = URLDatabase.expires_at st
  ∧ (URLDatabase.visit_count st ≤ URLDatabase.visit_count st')%Z.

(** * Proofs *)

(** ** Attribute assignments on nodes *)

Section assign.
Import LRUCache.

Lemma assign_next_spec (h : list Node.t) i v :
  i < length h →
  ∃ h', assign_next h (Some i) v = Some h' ∧ length h' = length h
    ∧ (∀ a, nx h' a = if decide (a = i) then v else nx h a)
    ∧ (∀ a, pv h' a = pv h a)
    ∧ (∀ a, entry h' a = entry h a).
Proof.
  intros Hi. destruct (lookup_lt_is_Some_2 h i Hi) as [n Hn].
  eexists. unfold assign_next. simpl. rewrite Hn. simpl.
  split; [done|]. split; [by rewrite length_insert|].
  repeat split; intros a; unfold nx, pv, entry;
    (destruct (decide (a = i)) as [->|];
      [rewrite list_lookup_insert_eq by done; rewrite ?Hn; by destruct n
      |by rewrite list_lookup_insert_ne by done]).
Qed.

Lemma assign_prev_spec (h : list Node.t) i v :
  i < length h →
  ∃ h', assign_prev h (Some i) v = Some h' ∧ length h' = length h
    ∧ (∀ a, nx h' a = nx h a)
    ∧ (∀ a, pv h' a = if decide (a = i) then v else pv h a)
    ∧ (∀ a, entry h' a = entry h a).
Proof.
  intros Hi. destruct (lookup_lt_is_Some_2 h i Hi) as [n Hn].
  eexists. unfold assign_prev. simpl. rewrite Hn. simpl.
  split; [done|]. split; [by rewrite length_insert|].
  repeat split; intros a; unfold nx, pv, entry;
    (destruct (decide (a = i)) as [->|];
      [rewrite list_lookup_insert_eq by done; rewrite ?Hn; by destruct n
      |by rewrite list_lookup_insert_ne by done]).
Qed.
End assign.

Arguments LRUCache.assign_next : simpl never.
Arguments LRUCache.assign_prev : simpl never.

(** ** [_remove] and [_add] on the links *)

Section links.
Import LRUCache.

Lemma nx_lookup (h : list Node.t) a n : h !! a = Some n → nx h a = Node.next n.
Proof. unfold nx. by intros ->. Qed.

Lemma pv_lookup (h : list Node.t) a n : h !! a = Some n → pv h a = Node.prev n.
Proof. unfold pv. by intros ->. Qed.

Lemma nx_Some_lt (h : list Node.t) a b : nx h a = Some b → a < length h.
Proof.
  unfold nx. destruct (h !! a) eqn:E; [|done]. intros _. by eapply lookup_lt_Some.
Qed.

Lemma pv_Some_lt (h : list Node.t) a b : pv h a = Some b → a < length h.
Proof.
  unfold pv. destruct (h !! a) eqn:E; [|done]. intros _. by eapply lookup_lt_Some.
Qed.

Lemma _remove_spec (c : t) x p n :
  pv (heap c) x = Some p → nx (heap c) x = Some n → p ≠ x →
  p < length (heap c) → n < length (heap c) →
  ∃ h', _remove c x = Some (with_heap c h') ∧ length h' = length (heap c)
    ∧ (∀ a, nx h' a = if decide (a = p) then Some n else nx (heap c) a)
    ∧ (∀ a, pv h' a = if decide (a = n) then Some p else pv (heap c) a)
    ∧ (∀ a, entry h' a = entry (heap c) a).
Proof.
  intros Hp Hn Hpx Hpl Hnl.
  assert (Hx : x < length (heap c)) by by eapply nx_Some_lt.
  destruct (lookup_lt_is_Some_2 _ _ Hx) as [nd Hnd].
  rewrite (nx_lookup _ _ _ Hnd) in Hn. rewrite (pv_lookup _ _ _ Hnd) in Hp.
  destruct (assign_next_spec (heap c) p (Some n) Hpl) as (h1 & E1 & L1 & N1 & P1 & K1).
  assert (Hx1 : x < length h1) by lia.
  destruct (lookup_lt_is_Some_2 _ _ Hx1) as [nd1 Hnd1].
  assert (Hn1 : Node.next nd1 = Some n).
  { rewrite <- (nx_lookup _ _ _ Hnd1), N1. rewrite decide_False by done.
    by rewrite (nx_lookup _ _ _ Hnd). }
  assert (Hp1 : Node.prev nd1 = Some p).
  { rewrite <- (pv_lookup _ _ _ Hnd1), P1. by rewrite (pv_lookup _ _ _ Hnd). }
  assert (Hnl1 : n < length h1) by lia.
  destruct (assign_prev_spec h1 n (Some p) Hnl1) as (h2 & E2 & L2 & N2 & P2 & K2).
  exists h2. unfold _remove. rewrite Hnd. simpl. rewrite Hp, Hn, E1. simpl.
  rewrite Hnd1. simpl. rewrite Hn1, Hp1, E2. simpl.
  split; [done|]. split; [lia|]. split; [|split].
  - intros a. by rewrite N2, N1.
  - intros a. by rewrite P2, P1.
  - intros a. by rewrite K2, K1.
Qed.

Lemma _add_spec (c : t) x f :
  nx (heap c) (head c) = Some f → x ≠ head c → x ≠ f →
  x < length (heap c) → f < length (heap c) →
  ∃ h', _add c x = Some (with_heap c h') ∧ length h' = length (heap c)
    ∧ (∀ a, nx h' a = if decide (a = head c) then Some x
                      else if decide (a = x) then Some f else nx (heap c) a)
    ∧ (∀ a, pv h' a = if decide (a = f) then Some x
                      else if decide (a = x) then Some (head c) else pv (heap c) a)
    ∧ (∀ a, entry h' a = entry (heap c) a).
Proof.
  intros Hf Hxh Hxf Hxl Hfl.
  assert (Hh : head c < length (heap c)) by by eapply nx_Some_lt.
  destruct (assign_prev_spec (heap c) x (Some (head c)) Hxl) as (h1 & E1 & L1 & N1 & P1 & K1).
  assert (Hh1 : head c < length h1) by lia.
  destruct (lookup_lt_is_Some_2 _ _ Hh1) as [hd1 Hhd1].
  assert (Hn1 : Node.next hd1 = Some f).
  { by rewrite <- (nx_lookup _ _ _ Hhd1), N1. }
  assert (Hxl1 : x < length h1) by lia.
  destruct (assign_next_spec h1 x (Some f) Hxl1) as (h2 & E2 & L2 & N2 & P2 & K2).
  assert (Hh2 : head c < length h2) by lia.
  destruct (lookup_lt_is_Some_2 _ _ Hh2) as [hd2 Hhd2].
  assert (Hn2 : Node.next hd2 = Some f).
  { rewrite <- (nx_lookup _ _ _ Hhd2), N2, N1. by rewrite decide_False by done. }
  assert (Hfl2 : f < length h2) by lia.
  destruct (assign_prev_spec h2 f (Some x) Hfl2) as (h3 & E3 & L3 & N3 & P3 & K3).
  assert (Hh3 : head c < length h3) by lia.
  destruct (assign_next_spec h3 (head c) (Some x) Hh3) as (h4 & E4 & L4 & N4 & P4 & K4).
  exists h4. unfold _add. rewrite E1. simpl. rewrite Hhd1. simpl.
  rewrite Hn1, E2. simpl. rewrite Hhd2. simpl. rewrite Hn2, E3. simpl.
  rewrite E4. simpl.
  split; [done|]. split; [lia|]. split; [|split].
  - intros a. rewrite N4, N3, N2, N1. done.
  - intros a. rewrite P4, P3, P2, P1. done.
  - intros a. by rewrite K4, K3, K2, K1.
Qed.
End links.

(** ** Unlinking and linking a node of a chain *)

Section chains.
Import LRUCache.
Implicit Types (h : list Node.t) (ch : list nat) (c : t)
  (l : list (nat * (string * string))).

Lemma linked_delete h h' ch j p x n :
  NoDup ch → linked h ch →
  ch !! j = Some p → ch !! S j = Some x → ch !! S (S j) = Some n →
  (∀ a, nx h' a = if decide (a = p) then Some n else nx h a) →
  (∀ a, pv h' a = if decide (a = n) then Some p else pv h a) →
  linked h' (delete (S j) ch).
Proof.
  intros ND L Hp Hx Hn N P i a b Ha Hb.
  rewrite N, P. destruct (lt_eq_lt_dec i j) as [[Hlt| ->]|Hgt].
  - rewrite list_lookup_delete_lt in Ha, Hb by lia.
    destruct (L _ _ _ Ha Hb) as [? ?].
    rewrite !decide_False; [done| |].
    + intros ->. pose proof (NoDup_lookup _ _ _ _ ND Hb Hn). lia.
    + intros ->. pose proof (NoDup_lookup _ _ _ _ ND Ha Hp). lia.
  - rewrite list_lookup_delete_lt in Ha by lia.
    rewrite list_lookup_delete_ge in Hb by lia.
    assert (a = p) as -> by congruence. assert (b = n) as -> by congruence.
    by rewrite !decide_True.
  - rewrite list_lookup_delete_ge in Ha, Hb by lia.
    destruct (L _ _ _ Ha Hb) as [? ?].
    rewrite !decide_False; [done| |].
    + intros ->. pose proof (NoDup_lookup _ _ _ _ ND Hb Hn). lia.
    + intros ->. pose proof (NoDup_lookup _ _ _ _ ND Ha Hp). lia.
Qed.

Lemma linked_add h h' hd f rest x :
  NoDup (hd :: f :: rest) → x ∉ hd :: f :: rest → linked h (hd :: f :: rest) →
  (∀ a, nx h' a = if decide (a = hd) then Some x
                  else if decide (a = x) then Some f else nx h a) →
  (∀ a, pv h' a = if decide (a = f) then Some x
                  else if decide (a = x) then Some hd else pv h a) →
  linked h' (hd :: x :: f :: rest).
Proof.
  intros ND Hx L N P i a b Ha Hb. rewrite N, P.
  assert (Hxh : x ≠ hd) by (intros ->; apply Hx; left).
  assert (Hxf : x ≠ f) by (intros ->; apply Hx; right; left).
  destruct i as [|[|i]]; simpl in Ha, Hb; simplify_eq.
  - rewrite decide_True by done. rewrite decide_False by done.
    by rewrite decide_True.
  - rewrite decide_False by done. rewrite !decide_True by done. done.
  - assert (Ha' : (hd :: f :: rest) !! S i = Some a) by done.
    assert (Hb' : (hd :: f :: rest) !! S (S i) = Some b) by done.
    destruct (L _ _ _ Ha' Hb') as [? ?].
    assert (a ≠ hd).
    { intros ->. by pose proof (NoDup_lookup _ 0 (S i) _ ND eq_refl Ha'). }
    assert (b ≠ f).
    { intros ->. by pose proof (NoDup_lookup _ 1 (S (S i)) _ ND eq_refl Hb'). }
    assert (a ≠ x).
    { intros ->. apply Hx. by eapply list_elem_of_lookup_2. }
    assert (b ≠ x).
    { intros ->. apply Hx. by eapply list_elem_of_lookup_2. }
    by rewrite !decide_False.
Qed.

Lemma linked_ext h h' ch :
  (∀ a, a ∈ ch → nx h' a = nx h a ∧ pv h' a = pv h a) →
  linked h ch → linked h' ch.
Proof.
  intros E L i a b Ha Hb. destruct (L _ _ _ Ha Hb) as [? ?].
  destruct (E a) as [-> _]; [by eapply list_elem_of_lookup_2|].
  destruct (E b) as [_ ->]; [by eapply list_elem_of_lookup_2|]. done.
Qed.

Lemma chain_length c l : length (chain c l) = S (S (length l)).
Proof. unfold chain. simpl. rewrite length_app, length_fmap. simpl. lia. Qed.

Lemma chain_lookup c l j x e :
  l !! j = Some (x, e) → chain c l !! S j = Some x.
Proof.
  intros H. unfold chain. simpl. rewrite lookup_app_l.
  - by rewrite list_lookup_fmap, H.
  - rewrite length_fmap. by eapply lookup_lt_Some.
Qed.

Lemma chain_delete c l j :
  j < length l → chain c (delete j l) = delete (S j) (chain c l).
Proof.
  intros Hj. unfold chain. simpl. f_equal. rewrite list_fmap_delete.
  assert (Hj' : j < length l.*1) by by rewrite length_fmap.
  revert Hj'. generalize (l.*1). clear. intros ids. revert j.
  induction ids as [|a ids IH]; intros [|j] Hj; simpl in *; try lia; [done|].
  f_equal. apply IH. lia.
Qed.

Lemma chain_lt c l a : Wf c l → a ∈ chain c l → a < length (heap c).
Proof.
  intros [ND L _] [i Hi]%list_elem_of_lookup_1.
  pose proof (lookup_lt_Some _ _ _ Hi) as Hlt. rewrite chain_length in Hlt.
  destruct (decide (S i < length (chain c l))) as [Hs|Hs].
  - destruct (lookup_lt_is_Some_2 _ _ Hs) as [b Hb].
    destruct (L _ _ _ Hi Hb) as [? _]. by eapply nx_Some_lt.
  - rewrite chain_length in Hs. destruct i as [|i]; [lia|].
    assert (Hp : i < length (chain c l)) by (rewrite chain_length; lia).
    destruct (lookup_lt_is_Some_2 _ _ Hp) as [b Hb].
    destruct (L _ _ _ Hb Hi) as [_ ?]. by eapply pv_Some_lt.
Qed.
End chains.

(** ** [_remove], [_add] and allocation keep the list well formed *)

Section wf_ops.
Import LRUCache.
Implicit Types (h : list Node.t) (ch : list nat) (c : t)
  (l : list (nat * (string * string))).

Lemma NoDup_not_elem_of_delete {A} (xs : list A) i x :
  NoDup xs → xs !! i = Some x → x ∉ delete i xs.
Proof.
  intros ND Hi [j Hj]%list_elem_of_lookup_1.
  rewrite list_lookup_delete in Hj. case_decide.
  - pose proof (NoDup_lookup _ _ _ _ ND Hi Hj). lia.
  - pose proof (NoDup_lookup _ _ _ _ ND Hi Hj). lia.
Qed.

Lemma Wf_remove c l j x e :
  Wf c l → l !! j = Some (x, e) →
  ∃ h', _remove c x = Some (with_heap c h')
    ∧ Wf (with_heap c h') (delete j l)
    ∧ (x ∉ chain c (delete j l))
    ∧ length h' = length (heap c)
    ∧ (∀ a, entry h' a = entry (heap c) a).
Proof.
  intros W Hj. pose proof W as [ND L En].
  pose proof (chain_lookup c _ _ _ _ Hj) as Hx.
  pose proof (lookup_lt_Some _ _ _ Hj) as Hjl.
  assert (Hjp : j < length (chain c l)) by (rewrite chain_length; lia).
  destruct (lookup_lt_is_Some_2 _ _ Hjp) as [p Hp].
  assert (Hjn : S (S j) < length (chain c l)) by (rewrite chain_length; lia).
  destruct (lookup_lt_is_Some_2 _ _ Hjn) as [n Hn].
  destruct (L _ _ _ Hp Hx) as [Hnp Hpx].
  destruct (L _ _ _ Hx Hn) as [Hxn Hpn].
  assert (p ≠ x).
  { intros ->. pose proof (NoDup_lookup _ _ _ _ ND Hp Hx). lia. }
  destruct (_remove_spec c x p n) as (h' & E & Len & N & P & K); try done.
  { by eapply nx_Some_lt. } { by eapply pv_Some_lt. }
  exists h'. split; [done|]. split; [|split; [|done]].
  - split.
    + change (chain (with_heap c h') (delete j l)) with (chain c (delete j l)).
      rewrite chain_delete by done.
      eapply sublist_NoDup; [done|apply sublist_delete].
    + change (chain (with_heap c h') (delete j l)) with (chain c (delete j l)).
      rewrite chain_delete by done.
      change (heap (with_heap c h')) with h'. by eapply linked_delete.
    + intros i e' Hin. simpl. rewrite K. apply En.
      eapply elem_of_sublist; [done|apply sublist_delete].
  - rewrite chain_delete by done. by apply NoDup_not_elem_of_delete.
Qed.

Lemma Wf_add c l x e :
  Wf c l → x < length (heap c) → x ∉ chain c l → entry (heap c) x = Some e →
  ∃ h', _add c x = Some (with_heap c h')
    ∧ Wf (with_heap c h') ((x, e) :: l)
    ∧ length h' = length (heap c)
    ∧ (∀ a, entry h' a = entry (heap c) a).
Proof.
  intros W Hxl Hx He. pose proof W as [ND L En].
  unfold chain in ND, L, Hx.
  destruct (l.*1 ++ [tail c])%list as [|f rest] eqn:Erest.
  { by destruct (l.*1). }
  destruct (L 0 (head c) f eq_refl eq_refl) as [Hf _].
  assert (Hfl : f < length (heap c)).
  { apply (chain_lt c l); [done|]. unfold chain. rewrite Erest. right. left. }
  destruct (_add_spec c x f) as (h' & E & Len & N & P & K); try done.
  { intros ->. apply Hx. left. } { intros ->. apply Hx. right. left. }
  exists h'. split; [done|]. split; [|done].
  split.
  - change (chain (with_heap c h') ((x, e) :: l))
      with (head c :: x :: (l.*1 ++ [tail c])%list).
    rewrite Erest. apply NoDup_cons in ND as [? ?].
    apply not_elem_of_cons in Hx as [Hxh Hxr].
    apply NoDup_cons. split; [by apply not_elem_of_cons|].
    apply NoDup_cons. by split.
  - change (chain (with_heap c h') ((x, e) :: l))
      with (head c :: x :: (l.*1 ++ [tail c])%list).
    rewrite Erest. change (heap (with_heap c h')) with h'. by eapply linked_add.
  - intros i e' Hin. simpl. rewrite K. apply elem_of_cons in Hin as [Heq|Hin].
    + by simplify_eq.
    + by apply En.
Qed.

Lemma entry_app_l h n a : a < length h → entry (h ++ [n]) a = entry h a.
Proof. intros H. unfold entry. by rewrite lookup_app_l. Qed.

Lemma Wf_alloc c l n :
  Wf c l →
  Wf (with_heap c (heap c ++ [n])) l
  ∧ (length (heap c) ∉ chain c l).
Proof.
  intros W. pose proof W as [ND L En].
  assert (Hlt : ∀ a, a ∈ chain c l → a < length (heap c)).
  { intros a. by apply chain_lt. }
  split; [split; [done| |]|].
  - change (chain (with_heap c (heap c ++ [n])) l) with (chain c l). simpl.
    eapply linked_ext; [|done]. intros a Ha%Hlt. unfold nx, pv.
    by rewrite lookup_app_l.
  - intros i e Hin. simpl. rewrite entry_app_l; [by apply En|].
    apply Hlt. unfold chain. apply elem_of_cons. right. apply elem_of_app. left.
    apply list_elem_of_fmap. by exists (i, e).
  - intros Hin%Hlt. lia.
Qed.
End wf_ops.

(** ** The list-level operations *)

Section lru_spec.
Implicit Types (kvs : list (string * string)).

Lemma remove_key_id kvs k : k ∉ kvs.*1 → remove_key k kvs = kvs.
Proof.
  intros Hk. unfold remove_key. induction kvs as [|[k' v'] kvs IH]; [done|].
  rewrite filter_cons. simpl in *. rewrite decide_True.
  - f_equal. apply IH. intros ?. apply Hk. by right.
  - intros ->. apply Hk. by left.
Qed.

Lemma delete_remove_key kvs j k v :
  NoDup kvs.*1 → kvs !! j = Some (k, v) → delete j kvs = remove_key k kvs.
Proof.
  revert j. induction kvs as [|[k' v'] kvs IH]; intros j ND Hj; [done|].
  apply NoDup_cons in ND as [Hk' ND]. unfold remove_key. rewrite filter_cons.
  destruct j as [|j]; simpl in *.
  - simplify_eq. rewrite decide_False by (intros ?; done).
    symmetry. by apply remove_key_id.
  - rewrite decide_True.
    + f_equal. by apply IH.
    + intros ->. apply Hk'. apply list_elem_of_fmap. exists (k, v). split; [done|].
      by eapply list_elem_of_lookup_2.
Qed.

Lemma list_find_key kvs j k v :
  NoDup kvs.*1 → kvs !! j = Some (k, v) →
  list_find (λ e, e.1 = k) kvs = Some (j, (k, v)).
Proof.
  intros ND Hj. apply list_find_Some. split; [done|]. split; [done|].
  intros i [k' v'] Hi Hlt ?. simpl in *. subst k'.
  assert (i = j); [|lia].
  eapply (NoDup_lookup kvs.*1 i j k); [done| |].
  - by rewrite list_lookup_fmap, Hi.
  - by rewrite list_lookup_fmap, Hj.
Qed.

Lemma lru_get_hit kvs j k v :
  NoDup kvs.*1 → kvs !! j = Some (k, v) →
  lru_get kvs k = ((k, v) :: delete j kvs, Some v).
Proof.
  intros ND Hj. unfold lru_get. rewrite (list_find_key _ _ _ _ ND Hj).
  by rewrite (delete_remove_key _ _ _ _ ND Hj).
Qed.

Lemma lru_get_miss kvs k : k ∉ kvs.*1 → lru_get kvs k = (kvs, None).
Proof.
  intros Hk. unfold lru_get.
  destruct (list_find _ kvs) as [[i e]|] eqn:E; [|done].
  apply list_find_Some in E as (Hi & He & _). exfalso. apply Hk.
  apply list_elem_of_fmap. exists e. split; [done|]. by eapply list_elem_of_lookup_2.
Qed.
End lru_spec.

(** ** [get] refines [lru_get] *)

Section rep.
Import LRUCache.
Implicit Types (c : t) (l : list (nat * (string * string))).

Lemma entry_Some (h : list Node.t) x k v :
  entry h x = Some (k, v) →
  ∃ n, h !! x = Some n ∧ Node.key n = Some k ∧ Node.value n = Some v.
Proof.
  unfold entry. destruct (h !! x) as [n|]; [|done]. simpl.
  destruct (Node.key n) eqn:Ek; [|done]. simpl.
  destruct (Node.value n) eqn:Ev; [|done]. simpl.
  intros [= -> ->]. by exists n.
Qed.

Lemma Rep_ids_NoDup c l : Rep c l → NoDup l.*1.
Proof.
  intros [[ND _ _] _ _]. unfold chain in ND.
  apply NoDup_cons in ND as [_ ND]. by apply NoDup_app in ND as [? _].
Qed.

Lemma Rep_key_unique c l j1 j2 i1 i2 k v1 v2 :
  Rep c l → l !! j1 = Some (i1, (k, v1)) → l !! j2 = Some (i2, (k, v2)) → j1 = j2.
Proof.
  intros R H1 H2. pose proof (Rep_ids_NoDup _ _ R) as ND.
  destruct R as [_ RC _].
  assert (cache c !! k = Some i1) as E1.
  { apply RC. exists v1. by eapply list_elem_of_lookup_2. }
  assert (cache c !! k = Some i2) as E2.
  { apply RC. exists v2. by eapply list_elem_of_lookup_2. }
  assert (i1 = i2) as -> by congruence.
  eapply (NoDup_lookup l.*1 _ _ i2); [done| |]; rewrite list_lookup_fmap.
  - by rewrite H1. - by rewrite H2.
Qed.

Lemma Rep_keys_NoDup c l : Rep c l → NoDup l.*2.*1.
Proof.
  intros R. apply NoDup_alt. intros j1 j2 k H1 H2.
  rewrite !list_lookup_fmap in H1, H2.
  destruct (l !! j1) as [[i1 [k1 v1]]|] eqn:E1; [|done].
  destruct (l !! j2) as [[i2 [k2 v2]]|] eqn:E2; [|done].
  simpl in *. simplify_eq. by eapply Rep_key_unique.
Qed.

Lemma Rep_cache_None c l k : Rep c l → cache c !! k = None → k ∉ l.*2.*1.
Proof.
  intros [_ RC _] Hk Hin.
  apply list_elem_of_fmap in Hin as (e & -> & Hin).
  apply list_elem_of_fmap in Hin as ([i [k v]] & -> & Hin). simpl in *.
  assert (cache c !! k = Some i) by (apply RC; eauto). congruence.
Qed.

Lemma Rep_cache_Some c l k x :
  Rep c l → cache c !! k = Some x → ∃ j v, l !! j = Some (x, (k, v)).
Proof.
  intros [_ RC _] Hk. apply RC in Hk as [v Hin].
  apply list_elem_of_lookup_1 in Hin as [j Hj]. eauto.
Qed.

Lemma Rep_init cap : Rep (__init__ cap) [].
Proof.
  split; [split|..].
  - unfold chain. simpl. apply NoDup_cons.
    split; [by intros ?%list_elem_of_singleton|apply NoDup_singleton].
  - intros [|[|i]] a b Ha Hb; simpl in *; by simplify_eq.
  - intros i e Hin. by apply elem_of_nil in Hin.
  - intros k i. simpl. rewrite lookup_empty. split; [done|].
    intros [v Hin]. by apply elem_of_nil in Hin.
  - done.
Qed.

Lemma get_hit c l j x k v :
  Rep c l → l !! j = Some (x, (k, v)) →
  ∃ c', get c k = Some (c', Some v)
    ∧ Rep c' ((x, (k, v)) :: delete j l)
    ∧ capacity c' = capacity c ∧ cache c' = cache c.
Proof.
  intros R Hj. pose proof R as [W RC RS].
  assert (Hk : cache c !! k = Some x).
  { apply RC. exists v. by eapply list_elem_of_lookup_2. }
  destruct (Wf_remove _ _ _ _ _ W Hj) as (h1 & E1 & W1 & Hx1 & L1 & K1).
  assert (Hxl : x < length h1).
  { rewrite L1. apply (chain_lt c l); [done|]. eapply list_elem_of_lookup_2.
    by eapply chain_lookup. }
  destruct (Wf_add (with_heap c h1) (delete j l) x (k, v) W1 Hxl Hx1)
    as (h2 & E2 & W2 & L2 & K2).
  { simpl. rewrite K1. destruct W as [_ _ En]. apply En.
    by eapply list_elem_of_lookup_2. }
  assert (He : entry h2 x = Some (k, v)).
  { rewrite K2. simpl. rewrite K1. destruct W as [_ _ En]. apply En.
    by eapply list_elem_of_lookup_2. }
  apply entry_Some in He as (n & Hn & _ & Hv).
  eexists. unfold get. rewrite Hk, E1. simpl. rewrite E2. simpl.
  rewrite Hn. simpl. rewrite Hv. split; [done|]. split; [|done].
  split; [done| |].
  - intros k' i. simpl. rewrite RC. apply exist_proper. intros v'.
    by rewrite (delete_Permutation l j _ Hj) at 1.
  - simpl. rewrite RS. rewrite (delete_Permutation l j _ Hj) at 1. done.
Qed.

Lemma get_miss c k : cache c !! k = None → get c k = Some (c, None).
Proof. intros H. unfold get. by rewrite H. Qed.
End rep.

(** ** [put] refines [lru_put] *)

Section rep_put.
Import LRUCache.
Implicit Types (c : t) (l : list (nat * (string * string))).

Lemma Wf_with_cache c l m : Wf c l → Wf (with_cache c m) l.
Proof. intros [? ? ?]. by split. Qed.

Lemma put_unlink c l k :
  Rep c l →
  ∃ h1 l1,
    match cache c !! k with Some old => _remove c old | None => Some c end
      = Some (with_heap c h1)
    ∧ Wf (with_heap c h1) l1
    ∧ l1.*2 = remove_key k l.*2
    ∧ (∀ e, e ∈ l1 ↔ e ∈ l ∧ e.2.1 ≠ k)
    ∧ S (length l1) = (if cache c !! k is Some _ then length l else S (length l)).
Proof.
  intros R. destruct (cache c !! k) as [x|] eqn:Hk.
  - destruct (Rep_cache_Some _ _ _ _ R Hk) as (j & v & Hj).
    pose proof R as [W RC RS].
    destruct (Wf_remove _ _ _ _ _ W Hj) as (h1 & E1 & W1 & Hx1 & L1 & K1).
    exists h1, (delete j l). split; [done|]. split; [done|]. split; [|split].
    + rewrite list_fmap_delete. apply (delete_remove_key _ _ k v).
      * by eapply Rep_keys_NoDup.
      * by rewrite list_lookup_fmap, Hj.
    + intros [i [k' v']]. simpl. split.
      * intros Hin. split; [by eapply elem_of_sublist, sublist_delete|].
        intros ->. assert (cache c !! k = Some i) by (apply RC; exists v';
          by eapply elem_of_sublist, sublist_delete). simplify_eq.
        apply Hx1. unfold chain. apply elem_of_cons. right. apply elem_of_app. left.
        apply list_elem_of_fmap. by exists (x, (k, v')).
      * intros [Hin Hne]. rewrite (delete_Permutation l j _ Hj) in Hin.
        apply elem_of_cons in Hin as [?|?]; [by simplify_eq|done].
    + rewrite length_delete by eauto. apply lookup_lt_Some in Hj. lia.
  - exists (heap c), l. split; [by destruct c|]. destruct R as [W RC RS].
    split; [by destruct c|]. split; [|split; [|done]].
    + symmetry. apply remove_key_id. eapply Rep_cache_None; [by split|done].
    + intros [i [k' v']]. simpl. split; [|by intros [? _]].
      intros Hin. split; [done|]. intros ->.
      assert (cache c !! k = Some i) by (apply RC; eauto). congruence.
Qed.

Lemma put_link c l k v :
  Wf c l →
  ∃ h3, _add (with_heap c (heap c ++ [Node.__init__ (Some k) (Some v)])) (length (heap c))
        = Some (with_heap c h3)
    ∧ Wf (with_heap c h3) ((length (heap c), (k, v)) :: l).
Proof.
  intros W.
  destruct (Wf_alloc c l (Node.__init__ (Some k) (Some v)) W) as [W2 Hy].
  destruct (Wf_add _ _ (length (heap c)) (k, v) W2) as (h3 & E3 & W3 & _ & _).
  - simpl. rewrite length_app. simpl. lia.
  - done.
  - simpl. unfold entry. by rewrite list_lookup_middle.
  - exists h3. split; [done|]. done.
Qed.

Lemma take_pred_delete {A} (xs : list A) :
  delete (length xs - 1) xs = take (length xs - 1) xs.
Proof.
  induction xs as [|x xs IH] using rev_ind; [done|].
  rewrite length_app. simpl. replace (length xs + 1 - 1) with (length xs) by lia.
  rewrite delete_middle, take_app_length. by rewrite app_nil_r.
Qed.

Lemma evict_spec c l :
  Rep c l → l ≠ [] →
  ∃ c',
    (tl ← heap c !! tail c; lru_node ← Node.prev tl;
     self5 ← _remove c lru_node; lru ← heap self5 !! lru_node;
     k ← Node.key lru; _ ← cache self5 !! k;
     Some (with_cache self5 (delete k (cache self5)))) = Some c'
    ∧ Rep c' (take (length l - 1) l) ∧ capacity c' = capacity c.
Proof.
  intros R Hne. pose proof R as [W RC RS]. pose proof (Rep_ids_NoDup _ _ R) as NDi.
  assert (Hlen : length l - 1 < length l) by (destruct l; [done|simpl; lia]).
  destruct (lookup_lt_is_Some_2 _ _ Hlen) as [[z [kz vz]] Hj].
  pose proof (chain_lookup c _ _ _ _ Hj) as Hz.
  assert (Ht : chain c l !! S (S (length l - 1)) = Some (tail c)).
  { unfold chain. simpl. apply list_lookup_middle. rewrite length_fmap. lia. }
  destruct W as [ND L En]. destruct (L _ _ _ Hz Ht) as [_ Hpv].
  unfold pv in Hpv. destruct (heap c !! tail c) as [tl|] eqn:Htl; [|done].
  simpl in Hpv.
  destruct (Wf_remove c l _ _ _ (Build_Wf _ _ ND L En) Hj)
    as (h5 & E5 & W5 & Hz5 & L5 & K5).
  assert (He : entry h5 z = Some (kz, vz)).
  { rewrite K5. apply En. by eapply list_elem_of_lookup_2. }
  apply entry_Some in He as (n & Hn & Hkey & _).
  assert (Hc : cache c !! kz = Some z).
  { apply RC. exists vz. by eapply list_elem_of_lookup_2. }
  eexists. simpl. rewrite Hpv. simpl. rewrite E5. simpl. rewrite Hn. simpl.
  rewrite Hkey. simpl. rewrite Hc. simpl. split; [done|]. split; [|done].
  rewrite <- take_pred_delete. split.
  - by apply Wf_with_cache.
  - intros k i. simpl. rewrite lookup_delete. case_decide as Hk.
    + subst k. split; [done|]. intros [v Hin]. exfalso.
      assert (cache c !! kz = Some i).
      { apply RC. exists v. by eapply elem_of_sublist, sublist_delete. }
      simplify_eq. apply Hz5. unfold chain. apply elem_of_cons. right.
      apply elem_of_app. left. apply list_elem_of_fmap. by exists (z, (kz, v)).
    + rewrite RC. apply exist_proper. intros v.
      rewrite (delete_Permutation l _ _ Hj) at 1. rewrite elem_of_cons.
      split; [|by right]. intros [?|?]; [by simplify_eq|done].
  - simpl. rewrite map_size_delete_Some by eauto. rewrite length_delete by eauto.
    lia.
Qed.

Lemma put_spec c l k v :
  Rep c l →
  ∃ c' l', put c k v = Some c' ∧ Rep c' l' ∧ capacity c' = capacity c
    ∧ l'.*2 = lru_put (capacity c) l.*2 k v.
Proof.
  intros R. destruct (put_unlink c l k R) as (h1 & l1 & E1 & W1 & Hkv & Hin & Hlen).
  destruct (put_link _ _ k v W1) as (h3 & E3 & W3).
  change (heap (with_heap c h1)) with h1 in E3, W3.
  change (with_heap (with_heap c h1) h3) with (with_heap c h3) in E3, W3.
  pose proof R as [W RC RS].
  set (y := length h1) in *. set (l2 := (y, (k, v)) :: l1).
  set (c4 := with_cache (with_heap c h3) (<[k := y]> (cache c))).
  assert (R4 : Rep c4 l2).
  { split.
    - by apply Wf_with_cache.
    - intros k' i. simpl. unfold l2. rewrite lookup_insert. case_decide as Hk.
      + subst k'. split.
        * intros [= <-]. exists v. by left.
        * intros [v' [?|Hl1]%elem_of_cons]; [by simplify_eq|].
          apply Hin in Hl1 as [_ ?]. done.
      + rewrite RC. apply exist_proper. intros v'. rewrite elem_of_cons, Hin.
        simpl. split; [by right|]. intros [?|[? _]]; [by simplify_eq|done].
    - simpl. unfold l2. simpl. destruct (cache c !! k) eqn:Hk.
      + rewrite map_size_insert_Some by eauto. lia.
      + rewrite map_size_insert_None by done. lia. }
  assert (Hl2 : l2.*2 = (k, v) :: remove_key k l.*2).
  { change (l2.*2) with ((k, v) :: l1.*2). by rewrite Hkv. }
  unfold put. rewrite E1. simpl. fold y. rewrite E3. simpl.
  change (with_cache (with_heap c h3) (<[k:=y]> (cache c))) with c4.
  assert (Hput : lru_put (capacity c) l.*2 k v
    = if (capacity c <? Z.of_nat (length l2))%Z
      then take (length l2 - 1) l2.*2 else l2.*2).
  { unfold lru_put. cbv zeta. by rewrite <- Hl2, length_fmap. }
  rewrite Hput. pose proof R4 as [W4 RC4 RS4].
  change (size (<[k:=y]> (cache c))) with (size (cache c4)). rewrite RS4.
  destruct (capacity c <? Z.of_nat (length l2))%Z eqn:Hcap.
  - destruct (evict_spec c4 l2 R4) as (c' & E' & R' & Hcap'); [done|].
    exists c', (take (length l2 - 1) l2).
    split; [exact E'|]. split; [done|]. split; [done|]. by rewrite fmap_take.
  - by exists c4, l2.
Qed.
End rep_put.

(** ** Reading the list and the dictionary *)

Section observe.
Import LRUCache.
Implicit Types (c : t) (l : list (nat * (string * string))).

Lemma walk_chain c l :
  Wf c l →
  ∀ fuel j cur, chain c l !! S j = Some cur → (length l - j ≤ fuel)%nat →
    walk fuel c cur = drop j l.*1.
Proof.
  intros [ND L _].
  assert (Ht : chain c l !! S (length l) = Some (tail c)).
  { unfold chain. simpl. apply list_lookup_middle. by rewrite length_fmap. }
  induction fuel as [|fuel IH]; intros j cur Hj Hf.
  - simpl. rewrite drop_ge; [done|]. rewrite length_fmap. lia.
  - simpl. pose proof (lookup_lt_Some _ _ _ Hj) as Hlt. rewrite chain_length in Hlt.
    case_decide as Hc.
    + subst cur. pose proof (NoDup_lookup _ _ _ _ ND Hj Ht).
      rewrite drop_ge; [done|]. rewrite length_fmap. lia.
    + assert (j < length l).
      { destruct (decide (j = length l)) as [->|]; [congruence|lia]. }
      assert (Hn : S (S j) < length (chain c l)) by (rewrite chain_length; lia).
      destruct (lookup_lt_is_Some_2 _ _ Hn) as [nxt Hnxt].
      destruct (L _ _ _ Hj Hnxt) as [Hnx _]. unfold nx in Hnx. rewrite Hnx.
      rewrite (IH (S j) nxt) by (done || lia).
      symmetry. apply drop_S. unfold chain in Hj. simpl in Hj.
      rewrite lookup_app_l in Hj; [done|]. by rewrite length_fmap.
Qed.

Lemma NoDup_bounded_length (xs : list nat) n :
  NoDup xs → (∀ x, x ∈ xs → x < n) → (length xs ≤ n)%nat.
Proof.
  intros ND Hb. trans (length (seq 0 n)); [|by rewrite length_seq].
  apply submseteq_length.
  apply NoDup_submseteq; [done|]. intros x Hx%Hb. apply elem_of_seq. lia.
Qed.

Lemma omap_entry (h : list Node.t) l :
  (∀ i e, (i, e) ∈ l → entry h i = Some e) → omap (entry h) l.*1 = l.*2.
Proof.
  induction l as [|[i e] l IH]; intros En; [done|]. simpl.
  rewrite (En i e) by left. f_equal. apply IH. intros i' e' ?. apply En. by right.
Qed.

Lemma to_list_Wf c l : Wf c l → to_list c = l.*2.
Proof.
  intros W. pose proof W as [ND L En]. unfold to_list.
  assert (H1 : 1 < length (chain c l)) by (rewrite chain_length; lia).
  destruct (lookup_lt_is_Some_2 _ _ H1) as [first Hfirst].
  destruct (L 0 (head c) first eq_refl Hfirst) as [Hnx _].
  unfold nx in Hnx. rewrite Hnx.
  rewrite (walk_chain c l W _ 0 first Hfirst).
  - rewrite drop_0. by apply omap_entry.
  - pose proof (NoDup_bounded_length _ (length (heap c)) ND) as Hlen.
    rewrite chain_length in Hlen. specialize (Hlen (λ x, chain_lt c l x W)). lia.
Qed.

Lemma keys_Rep c l : Rep c l → keys c = l.*2.*1.
Proof. intros [W _ _]. unfold keys. by rewrite (to_list_Wf c l W). Qed.

Lemma dom_Rep c l : Rep c l → dom (cache c) = list_to_set l.*2.*1.
Proof.
  intros [_ RC _]. apply set_eq. intros k.
  rewrite elem_of_dom, elem_of_list_to_set. split.
  - intros [i [v Hin]%RC]. apply list_elem_of_fmap. exists (k, v). split; [done|].
    apply list_elem_of_fmap. by exists (i, (k, v)).
  - intros (e & -> & Hin)%list_elem_of_fmap.
    apply list_elem_of_fmap in Hin as ([i [k v]] & -> & Hin).
    exists i. apply RC. eauto.
Qed.

Lemma peek_Rep c l k v : Rep c l → peek c k = Some v ↔ (k, v) ∈ l.*2.
Proof.
  intros R. pose proof R as [[_ _ En] RC _]. unfold peek. split.
  - destruct (cache c !! k) as [x|] eqn:Hk; [|done]. simpl.
    destruct (Rep_cache_Some _ _ _ _ R Hk) as (j & v' & Hj).
    apply list_elem_of_lookup_2 in Hj.
    destruct (entry_Some (heap c) x k v') as (n & -> & _ & Hv); [by apply En|].
    simpl. rewrite Hv. intros [= <-]. apply list_elem_of_fmap. by exists (x, (k, v')).
  - intros ([i [k' v']] & [= <- <-] & Hin)%list_elem_of_fmap.
    assert (Hk : cache c !! k = Some i) by (apply RC; eauto). rewrite Hk. simpl.
    destruct (entry_Some (heap c) i k v) as (n & -> & _ & Hv); [by apply En|].
    done.
Qed.
End observe.

(** ** The cache against the history of touches *)

Section recency.
Implicit Types (r ks : list string) (kvs : list (string * string)).

Lemma remove_key_fst kvs k : (remove_key k kvs).*1 = filter (λ k', k' ≠ k) kvs.*1.
Proof.
  unfold remove_key. induction kvs as [|[k' v'] kvs IH]; [done|].
  rewrite fmap_cons, !filter_cons. cbn [fst].
  case_decide; [rewrite fmap_cons|]; by rewrite IH.
Qed.

Lemma filter_ne_id r k : k ∉ r → filter (λ k', k' ≠ k) r = r.
Proof.
  induction r as [|a r IH]; [done|]. intros Hk. rewrite filter_cons.
  rewrite decide_True by (intros ->; apply Hk; left).
  f_equal. apply IH. intros ?. apply Hk. by right.
Qed.

Lemma take_filter_take r k n :
  NoDup r →
  take n (filter (λ k', k' ≠ k) (take (S n) r)) = take n (filter (λ k', k' ≠ k) r).
Proof.
  revert n. induction r as [|a r IH]; intros n ND; [done|].
  apply NoDup_cons in ND as [Ha ND]. simpl. rewrite !filter_cons.
  case_decide as Hak.
  - destruct n as [|n]; [done|]. simpl. f_equal. by apply IH.
  - subst a.
    rewrite (filter_ne_id r k Ha).
    rewrite filter_ne_id.
    + by rewrite take_take, Nat.min_id.
    + intros Hin. apply Ha. eapply elem_of_sublist; [done|apply sublist_take].
Qed.

Lemma length_filter_ne_lt r k : k ∈ r → (length (filter (λ k', k' ≠ k) r) < length r)%nat.
Proof.
  induction r as [|a r IH]; intros Hin; [by apply elem_of_nil in Hin|].
  rewrite filter_cons. case_decide as Hak; simpl.
  - apply elem_of_cons in Hin as [->|Hin]; [done|]. specialize (IH Hin). lia.
  - pose proof (length_filter (λ k', k' ≠ k) r). lia.
Qed.

Lemma NoDup_touch r k : NoDup r → NoDup (touch k r).
Proof.
  intros ND. apply NoDup_cons. split.
  - intros [? _]%list_elem_of_filter. congruence.
  - by apply NoDup_filter.
Qed.

(** Keys of the cache after a put, against the history of touches. *)
Lemma put_keys_recency (n : nat) r k :
  (1 ≤ n)%nat → NoDup r →
  let ks1 := touch k (take n r) in
  (if (Z.of_nat n <? Z.of_nat (length ks1))%Z then take (length ks1 - 1) ks1 else ks1)
  = take n (touch k r).
Proof.
  intros Hn ND ks1.
  assert (Hlen : (length ks1 ≤ S n)%nat).
  { unfold ks1, touch. simpl.
    pose proof (length_filter (λ k', k' ≠ k) (take n r)).
    pose proof (length_take_le r n). rewrite length_take in *. lia. }
  assert (Htake : take n ks1 = take n (touch k r)).
  { unfold ks1, touch. destruct n as [|n]; [lia|]. simpl. f_equal.
    by apply take_filter_take. }
  rewrite <- Htake. destruct (Z.ltb_spec (Z.of_nat n) (Z.of_nat (length ks1))).
  - f_equal. lia.
  - rewrite take_ge; [done|lia].
Qed.

(** Keys of the cache after a get that hits. *)
Lemma get_keys_recency (n : nat) r k :
  (1 ≤ n)%nat → NoDup r → k ∈ take n r →
  touch k (take n r) = take n (touch k r).
Proof.
  intros Hn ND Hin. unfold touch. destruct n as [|n]; [lia|]. simpl. f_equal.
  rewrite <- take_filter_take by done. symmetry. apply take_ge.
  pose proof (length_filter_ne_lt _ _ Hin) as Hlt.
  rewrite length_take in Hlt. lia.
Qed.
End recency.

(** ** Sequences of operations *)

Section lru_runs.
Import LRUCache.
Implicit Types (c : t) (l : list (nat * (string * string))) (r : list string).

Lemma lru_put_keys cap (kvs : list (string * string)) k v :
  (lru_put cap kvs k v).*1 =
    let ks1 := touch k kvs.*1 in
    if (cap <? Z.of_nat (length ks1))%Z then take (length ks1 - 1) ks1 else ks1.
Proof.
  unfold lru_put, touch. cbv zeta.
  assert (E : ((k, v) :: remove_key k kvs).*1 = k :: filter (λ k', k' ≠ k) kvs.*1).
  { rewrite fmap_cons. by rewrite remove_key_fst. }
  rewrite <- E, length_fmap. case_match; [by rewrite fmap_take|done].
Qed.

Lemma get_spec c l k :
  Rep c l →
  ∃ c' l' res, get c k = Some (c', res) ∧ Rep c' l'
    ∧ capacity c' = capacity c
    ∧ (l'.*2, res) = lru_get l.*2 k.
Proof.
  intros R. destruct (cache c !! k) as [x|] eqn:Hk.
  - destruct (Rep_cache_Some _ _ _ _ R Hk) as (j & v & Hj).
    destruct (get_hit _ _ _ _ _ _ R Hj) as (c' & E & R' & Hcap & _).
    exists c', ((x, (k, v)) :: delete j l), (Some v).
    split; [done|]. split; [done|]. split; [done|].
    rewrite (lru_get_hit l.*2 j k v).
    + by rewrite fmap_cons, list_fmap_delete.
    + by eapply Rep_keys_NoDup.
    + by rewrite list_lookup_fmap, Hj.
  - exists c, l, None. split; [by apply get_miss|]. split; [done|]. split; [done|].
    rewrite lru_get_miss; [done|]. by eapply Rep_cache_None.
Qed.

Lemma lru_get_keys (kvs : list (string * string)) k :
  NoDup kvs.*1 →
  (lru_get kvs k).1.*1 = (if decide (k ∈ kvs.*1) then touch k kvs.*1 else kvs.*1)
  ∧ (is_Some (lru_get kvs k).2 ↔ k ∈ kvs.*1).
Proof.
  intros ND. destruct (decide (k ∈ kvs.*1)) as [Hin|Hnin].
  - apply list_elem_of_fmap in Hin as Hin'. destruct Hin' as ([k' v] & -> & Hkv).
    apply list_elem_of_lookup_1 in Hkv as [j Hj]. simpl.
    rewrite (lru_get_hit kvs j k' v ND Hj). simpl. split; [|by split; eauto].
    unfold touch. rewrite (delete_remove_key _ _ _ _ ND Hj). by rewrite remove_key_fst.
  - rewrite (lru_get_miss _ _ Hnin). simpl. split; [done|].
    split; [by intros [? ?]|done].
Qed.

Lemma run_ops_inv (C : Z) ops :
  (1 ≤ C)%Z →
  ∀ c l r, Rep c l → capacity c = C → l.*2.*1 = take (Z.to_nat C) r → NoDup r →
  ∃ c' l' r', run_ops ops c r = Some (c', r') ∧ Rep c' l' ∧ capacity c' = C
    ∧ l'.*2.*1 = take (Z.to_nat C) r' ∧ NoDup r'
    ∧ r' = recency (Z.to_nat C) ops r.
Proof.
  intros HC. induction ops as [|[k|k v] ops IH]; intros c l r R Hcap Hk ND.
  - by exists c, l, r.
  - destruct (get_spec c l k R) as (c' & l' & res & E & R' & Hcap' & Hspec).
    pose proof (lru_get_keys l.*2 k (Rep_keys_NoDup _ _ R)) as [Hks Hres].
    rewrite <- Hspec in Hks, Hres. simpl in Hks, Hres.
    cbn [run_ops recency]. rewrite E. simpl.
    destruct (decide (k ∈ l.*2.*1)) as [Hin|Hnin].
    + destruct Hres as [_ [v ->]]; [done|].
      rewrite decide_True by by rewrite <- Hk.
      apply IH with l'; [done|congruence| |by apply NoDup_touch].
      rewrite Hks, Hk. apply get_keys_recency; [lia|done|by rewrite <- Hk].
    + destruct res as [v|]; [exfalso; apply Hnin, Hres; eauto|].
      rewrite decide_False by by rewrite <- Hk.
      apply IH with l'; [done|congruence|congruence|done].
  - destruct (put_spec c l k v R) as (c' & l' & E & R' & Hcap' & Hspec).
    cbn [run_ops recency]. rewrite E. simpl.
    apply IH with l'; [done|congruence| |by apply NoDup_touch].
    rewrite Hspec, lru_put_keys, Hk, Hcap.
    rewrite <- (put_keys_recency (Z.to_nat C) r k) by (lia || done).
    cbv zeta. by rewrite Z2Nat.id by lia.
Qed.
End lru_runs.

(** ** Strings *)

Section strings.
Lemma length_append (s1 s2 : string) :
  String.length (s1 +:+ s2) = (String.length s1 + String.length s2)%nat.
Proof. induction s1 as [|c s1 IH]; simpl; [done|]. by rewrite IH. Qed.

Lemma length_string_of_list (cs : list ascii) :
  String.length (String.string_of_list_ascii cs) = length cs.
Proof. induction cs as [|c cs IH]; simpl; [done|]. by rewrite IH. Qed.

Lemma list_of_append (s1 s2 : string) :
  String.list_ascii_of_string (s1 +:+ s2)
  = String.list_ascii_of_string s1 ++ String.list_ascii_of_string s2.
Proof. induction s1 as [|c s1 IH]; simpl; [done|]. by rewrite IH. Qed.

Lemma all_chars_Forall (p : ascii → bool) (s : string) :
  all_chars p s = true ↔ Forall (λ c, p c = true) (String.list_ascii_of_string s).
Proof.
  induction s as [|c s IH]; simpl.
  - split; [by constructor|done].
  - rewrite andb_true_iff, IH, Forall_cons. done.
Qed.

Lemma char_in_get (s : string) i c : String.get i s = Some c → char_in c s = true.
Proof.
  revert i. induction s as [|c' s IH]; intros i; simpl; [done|].
  destruct i as [|i].
  - intros [= ->]. by rewrite Ascii.eqb_refl.
  - intros H. rewrite (IH _ H). by rewrite orb_true_r.
Qed.

Lemma length_rjust w fill s :
  String.length (rjust w fill s) = (w `max` String.length s)%nat.
Proof.
  unfold rjust. rewrite length_append, length_string_of_list, length_replicate. lia.
Qed.
End strings.

(** ** The encoding loop *)

Section base62.
Import URLShortener.

Lemma base_62 : N.of_nat (String.length charset) = 62%N.
Proof. reflexivity. Qed.

Lemma charset_get (r : N) :
  (r < 62)%N → String.get (N.to_nat r) charset = Some (charset_at r).
Proof.
  intros Hr.
  assert (Hall : forallb (λ i, if String.get i charset is Some _ then true else false)
                   (seq 0 62) = true) by (vm_compute; reflexivity).
  rewrite forallb_forall in Hall. specialize (Hall (N.to_nat r)).
  unfold charset_at. destruct (String.get (N.to_nat r) charset); [done|].
  discriminate Hall. apply in_seq. lia.
Qed.

Lemma charset_at_in (r : N) : char_in (charset_at r) charset = true.
Proof.
  unfold charset_at. destruct (String.get _ charset) as [c|] eqn:E.
  - apply (char_in_get _ _ _ E).
  - reflexivity.
Qed.

Lemma digit_charset_at (r : N) : (r < 62)%N → digit (charset_at r) = r.
Proof.
  intros Hr.
  assert (Hall : forallb (λ i, (digit (charset_at (N.of_nat i)) =? N.of_nat i)%N)
                   (seq 0 62) = true) by (vm_compute; reflexivity).
  rewrite forallb_forall in Hall. specialize (Hall (N.to_nat r)).
  rewrite N2Nat.id in Hall. apply N.eqb_eq, Hall. apply in_seq. lia.
Qed.

Lemma size_nat_bound (n : N) : (n < 2 ^ N.of_nat (N.size_nat n))%N.
Proof.
  destruct n as [|p]; [done|]. simpl.
  induction p as [p IH|p IH|]; simpl Pos.size_nat.
  - rewrite Nat2N.inj_succ, N.pow_succ_r'. lia.
  - rewrite Nat2N.inj_succ, N.pow_succ_r'. lia.
  - done.
Qed.

Lemma _encode_loop_0 fuel res : _encode_loop fuel 0 res = res.
Proof. by destruct fuel. Qed.

Lemma _encode_loop_S fuel num res :
  num ≠ 0%N →
  _encode_loop (S fuel) num res
  = _encode_loop fuel (num / 62) (res ++ [charset_at (num mod 62)]).
Proof.
  intros Hn. cbn [_encode_loop]. destruct (N.eqb_spec num 0); [done|].
  by rewrite base_62.
Qed.

Lemma div62_lt_pow2 num fuel :
  (num < 2 ^ N.of_nat (S fuel))%N → (num / 62 < 2 ^ N.of_nat fuel)%N.
Proof.
  rewrite Nat2N.inj_succ, N.pow_succ_r'. intros H.
  apply N.Div0.div_lt_upper_bound. lia.
Qed.

(** With fuel for the binary digits of [num], the loop of
    [_encode_base62] ends because [num] is 0, not because the fuel is. *)
Lemma _encode_loop_fuel fuel fuel' num res :
  (num < 2 ^ N.of_nat fuel)%N → (num < 2 ^ N.of_nat fuel')%N →
  _encode_loop fuel num res = _encode_loop fuel' num res.
Proof.
  revert fuel' num res. induction fuel as [|fuel IH]; intros fuel' num res H1 H2.
  - simpl in H1. assert (num = 0%N) as -> by lia. by rewrite !_encode_loop_0.
  - destruct fuel' as [|fuel'].
    + simpl in H2. assert (num = 0%N) as -> by lia. by rewrite !_encode_loop_0.
    + destruct (decide (num = 0%N)) as [->|Hn]; [by rewrite !_encode_loop_0|].
      rewrite !_encode_loop_S by done. apply IH; by apply div62_lt_pow2.
Qed.
End base62.

(** ** Decoding an encoded number *)

Section base62_value.
Import URLShortener.

Lemma val_lsb_snoc ds d :
  val_lsb (ds ++ [d]) = (val_lsb ds + 62 ^ N.of_nat (length ds) * digit d)%N.
Proof.
  induction ds as [|c ds IH]; simpl.
  - lia.
  - fold (val_lsb (ds ++ [d])). fold (val_lsb ds). rewrite IH.
    rewrite Nat2N.inj_succ, N.pow_succ_r'. lia.
Qed.

Lemma _encode_loop_val fuel num res :
  (num < 2 ^ N.of_nat fuel)%N →
  val_lsb (_encode_loop fuel num res)
  = (val_lsb res + 62 ^ N.of_nat (length res) * num)%N.
Proof.
  revert num res. induction fuel as [|fuel IH]; intros num res Hf.
  - simpl in Hf. assert (num = 0%N) as -> by lia. rewrite _encode_loop_0. lia.
  - destruct (decide (num = 0%N)) as [->|Hn]; [rewrite _encode_loop_0; lia|].
    rewrite _encode_loop_S by done. rewrite IH by by apply div62_lt_pow2.
    rewrite val_lsb_snoc, length_app. simpl length.
    rewrite digit_charset_at by (apply N.mod_lt; lia).
    replace (N.of_nat (length res + 1)) with (N.succ (N.of_nat (length res))) by lia.
    rewrite N.pow_succ_r'. pose proof (N.div_mod num 62). lia.
Qed.

Lemma decode_rev ds : decode (String.string_of_list_ascii (rev ds)) = val_lsb ds.
Proof.
  unfold decode. rewrite String.list_ascii_of_string_of_list_ascii.
  induction ds as [|d ds IH]; [done|]. simpl.
  rewrite fold_left_app. simpl. rewrite IH. fold (val_lsb ds). lia.
Qed.

Lemma decode_encode n : decode (_encode_base62 n) = n.
Proof.
  unfold _encode_base62. destruct (N.eqb_spec n 0) as [->|Hn]; [done|].
  rewrite decode_rev, _encode_loop_val by apply size_nat_bound. simpl. lia.
Qed.

Lemma decode_rjust w s : decode (rjust w "0" s) = decode s.
Proof.
  unfold decode, rjust. rewrite list_of_append, fold_left_app.
  rewrite String.list_ascii_of_string_of_list_ascii. f_equal.
  induction (w - String.length s) as [|k IH]; [done|]. simpl. exact IH.
Qed.

Lemma decode_code_of n : decode (code_of n) = n.
Proof. unfold code_of. by rewrite decode_rjust, decode_encode. Qed.

Lemma code_of_inj n m : code_of n = code_of m → n = m.
Proof. intros H. by rewrite <- (decode_code_of n), H, decode_code_of. Qed.
End base62_value.

(** ** Length and characters of a code *)

Section base62_shape.
Import URLShortener.

Lemma _encode_loop_length_ge fuel num res :
  length res ≤ length (_encode_loop fuel num res).
Proof.
  revert num res. induction fuel as [|fuel IH]; intros num res.
  - simpl. by destruct (num =? 0)%N.
  - destruct (decide (num = 0%N)) as [->|Hn]; [by rewrite _encode_loop_0|].
    rewrite _encode_loop_S by done. etrans; [|apply IH]. rewrite length_app. lia.
Qed.

Lemma _encode_loop_length_upper fuel (k : nat) num res :
  (num < 62 ^ N.of_nat k)%N →
  length (_encode_loop fuel num res) ≤ length res + k.
Proof.
  revert k num res. induction fuel as [|fuel IH]; intros k num res Hk.
  - simpl. destruct (num =? 0)%N; lia.
  - destruct (decide (num = 0%N)) as [->|Hn]; [rewrite _encode_loop_0; lia|].
    rewrite _encode_loop_S by done. destruct k as [|k]; [simpl in Hk; lia|].
    etrans; [apply (IH k)|].
    + rewrite Nat2N.inj_succ, N.pow_succ_r' in Hk.
      apply N.Div0.div_lt_upper_bound. lia.
    + rewrite length_app. simpl. lia.
Qed.

Lemma _encode_loop_length_lower fuel (k : nat) num res :
  (num < 2 ^ N.of_nat fuel)%N → (62 ^ N.of_nat k ≤ num)%N →
  length res + k + 1 ≤ length (_encode_loop fuel num res).
Proof.
  revert k num res. induction fuel as [|fuel IH]; intros k num res Hf Hk.
  - simpl in Hf. pose proof (N.pow_nonzero 62 (N.of_nat k)). lia.
  - assert (num ≠ 0%N) by (pose proof (N.pow_nonzero 62 (N.of_nat k)); lia).
    rewrite _encode_loop_S by done. destruct k as [|k].
    + etrans; [|apply _encode_loop_length_ge]. rewrite length_app. simpl. lia.
    + etrans; [|apply (IH k)].
      * rewrite length_app. simpl. lia.
      * by apply div62_lt_pow2.
      * rewrite Nat2N.inj_succ, N.pow_succ_r' in Hk.
        apply N.div_le_lower_bound; lia.
Qed.

Lemma _encode_loop_chars fuel num res :
  Forall (λ c, char_in c charset = true) res →
  Forall (λ c, char_in c charset = true) (_encode_loop fuel num res).
Proof.
  revert num res. induction fuel as [|fuel IH]; intros num res Hres.
  - simpl. by destruct (num =? 0)%N.
  - destruct (decide (num = 0%N)) as [->|Hn]; [by rewrite _encode_loop_0|].
    rewrite _encode_loop_S by done. apply IH. apply Forall_app. split; [done|].
    apply Forall_singleton. apply charset_at_in.
Qed.

Lemma _encode_base62_chars n :
  all_chars (λ c, char_in c charset) (_encode_base62 n) = true.
Proof.
  unfold _encode_base62. destruct (n =? 0)%N; [reflexivity|].
  apply all_chars_Forall. rewrite String.list_ascii_of_string_of_list_ascii.
  apply Forall_rev. by apply _encode_loop_chars.
Qed.

Lemma _encode_base62_length_upper n (k : nat) :
  (n < 62 ^ N.of_nat k)%N → 1 ≤ k → String.length (_encode_base62 n) ≤ k.
Proof.
  intros Hn Hk. unfold _encode_base62. destruct (n =? 0)%N; [simpl; lia|].
  rewrite length_string_of_list, length_rev.
  by apply (_encode_loop_length_upper _ k n []).
Qed.

Lemma _encode_base62_length_lower n (k : nat) :
  (62 ^ N.of_nat k ≤ n)%N → k + 1 ≤ String.length (_encode_base62 n).
Proof.
  intros Hn. unfold _encode_base62.
  destruct (N.eqb_spec n 0) as [->|H0].
  { pose proof (N.pow_nonzero 62 (N.of_nat k)). lia. }
  rewrite length_string_of_list, length_rev.
  apply (_encode_loop_length_lower _ k n []); [apply size_nat_bound|done].
Qed.

Lemma code_of_chars n : all_chars (λ c, char_in c charset) (code_of n) = true.
Proof.
  unfold code_of, rjust. apply all_chars_Forall. rewrite list_of_append.
  rewrite String.list_ascii_of_string_of_list_ascii. apply Forall_app. split.
  - apply Forall_replicate. reflexivity.
  - apply all_chars_Forall, _encode_base62_chars.
Qed.

Lemma code_of_length n :
  String.length (code_of n) = 7 `max` String.length (_encode_base62 n).
Proof. apply length_rjust. Qed.

Lemma code_of_length_7 n : (n < 62 ^ 7)%N ↔ String.length (code_of n) = 7.
Proof.
  rewrite code_of_length. split.
  - intros Hn. pose proof (_encode_base62_length_upper n 7 Hn). lia.
  - intros Hl. destruct (N.lt_ge_cases n (62 ^ 7)) as [|Hge]; [done|].
    pose proof (_encode_base62_length_lower n 7 Hge). lia.
Qed.

Lemma code_of_nonempty n : code_of n ≠ EmptyString.
Proof.
  intros H. pose proof (code_of_length n) as Hl. rewrite H in Hl. simpl in Hl. lia.
Qed.
End base62_shape.

(** ** The generation loop *)

Section generate.
Import URLShortener.

(** What a successful run of the generation loop did: it tried the
    sequence numbers [counter+1 .. n] in order, the codes of all but the
    last were taken, and it left the counter at [n]. *)
Lemma _generate_code_Some fuel s code s' :
  _generate_code fuel s 7 = Some (code, s') →
  let n := URLDatabase.counter (db s') in
  (URLDatabase.counter (db s) < n ≤ URLDatabase.counter (db s) + N.of_nat fuel)%N
  ∧ code = code_of n
  ∧ truthy_str (URLDatabase.code_to_url (db s) !! code) = false
  ∧ (∀ m, (URLDatabase.counter (db s) < m < n)%N →
       truthy_str (URLDatabase.code_to_url (db s) !! code_of m) = true)
  ∧ URLDatabase.url_to_code (db s') = URLDatabase.url_to_code (db s)
  ∧ URLDatabase.code_to_url (db s') = URLDatabase.code_to_url (db s)
  ∧ URLDatabase.stats (db s') = URLDatabase.stats (db s)
  ∧ cache s' = cache s.
Proof.
  revert s. induction fuel as [|fuel IH]; intros s; [done|].
  cbn [_generate_code]. unfold URLDatabase.get_url. cbn [db URLDatabase.bump_counter
    URLDatabase.counter URLDatabase.code_to_url].
  fold (code_of (URLDatabase.counter (db s) + 1)).
  destruct (truthy_str (URLDatabase.code_to_url (db s) !! code_of _)) eqn:Et; simpl.
  - intros H. apply IH in H. simpl in H.
    destruct H as ([H1 H2] & Hc & Hf & Hm & ? & ? & ? & ?).
    split; [lia|]. split; [done|]. split; [done|]. split; [|done].
    intros m Hm'. destruct (decide (m = URLDatabase.counter (db s) + 1)%N) as [->|].
    + done.
    + apply Hm. lia.
  - intros [= <- <-]. simpl. split; [lia|]. split; [done|]. split; [done|].
    split; [|done]. intros m Hm. lia.
Qed.

Lemma _generate_code_None fuel s :
  _generate_code fuel s 7 = None →
  ∀ i, i < fuel →
    truthy_str (URLDatabase.code_to_url (db s)
                  !! code_of (URLDatabase.counter (db s) + 1 + N.of_nat i)) = true.
Proof.
  revert s. induction fuel as [|fuel IH]; intros s H i Hi; [lia|].
  cbn [_generate_code] in H. unfold URLDatabase.get_url in H.
  cbn [db URLDatabase.bump_counter URLDatabase.counter URLDatabase.code_to_url] in H.
  fold (code_of (URLDatabase.counter (db s) + 1)) in H.
  destruct (truthy_str (URLDatabase.code_to_url (db s) !! code_of _)) eqn:Et;
    simpl in H; [|done].
  destruct i as [|i].
  - by rewrite N.add_0_r.
  - specialize (IH _ H i ltac:(lia)). simpl in IH.
    replace (URLDatabase.counter (db s) + 1 + N.of_nat (S i))%N
      with (URLDatabase.counter (db s) + 1 + 1 + N.of_nat i)%N by lia. done.
Qed.

Lemma truthy_str_Some (o : option string) :
  truthy_str o = true → ∃ s, o = Some s ∧ s ≠ EmptyString.
Proof. destruct o as [[|c s]|]; try done. intros _. by eexists. Qed.

(** The generation loop ends: at most as many sequence numbers collide
    as there are stored codes. *)
Lemma _generate_code_terminates fuel s :
  size (URLDatabase.code_to_url (db s)) < fuel →
  is_Some (_generate_code fuel s 7).
Proof.
  intros Hf. destruct (_generate_code fuel s 7) eqn:E; [by eexists|exfalso].
  pose proof (_generate_code_None _ _ E) as Hall.
  set (codes := (λ i, code_of (URLDatabase.counter (db s) + 1 + N.of_nat i)) <$> seq 0 fuel).
  assert (ND : NoDup codes).
  { apply NoDup_fmap_2; [|apply NoDup_seq].
    intros i j Hij%code_of_inj. lia. }
  assert (Hsub : codes ⊆+ elements (dom (URLDatabase.code_to_url (db s)))).
  { apply NoDup_submseteq; [done|]. intros c Hc.
    apply list_elem_of_fmap in Hc as (i & -> & Hi). apply elem_of_seq in Hi.
    apply elem_of_elements, elem_of_dom.
    destruct (truthy_str_Some _ (Hall i ltac:(lia))) as (u & -> & _). by eexists. }
  apply submseteq_length in Hsub. unfold codes in Hsub.
  rewrite length_fmap, length_seq in Hsub.
  change (length (elements ?X)) with (size X) in Hsub. rewrite size_dom in Hsub. lia.
Qed.

Lemma _generate_code_fuel_mono fuel fuel' s r :
  fuel ≤ fuel' → _generate_code fuel s 7 = Some r → _generate_code fuel' s 7 = Some r.
Proof.
  revert fuel' s. induction fuel as [|fuel IH]; intros fuel' s Hle; [done|].
  destruct fuel' as [|fuel']; [lia|]. cbn [_generate_code].
  destruct (negb _); [done|]. apply IH. lia.
Qed.
End generate.

(** ** Validators and truthiness *)

Section validators.
Import URLShortener.

Lemma _is_valid_url_nonempty u : _is_valid_url u = true → u ≠ EmptyString.
Proof. by intros H ->. Qed.


Lemma _is_valid_code_nonempty c : _is_valid_code c = true → c ≠ EmptyString.
Proof. by intros H ->. Qed.

Lemma truthy_str_true (o : option string) :
  truthy_str o = true ↔ ∃ s, o = Some s ∧ s ≠ EmptyString.
Proof.
  split; [apply truthy_str_Some|]. intros (s & -> & Hs). by destruct s.
Qed.
End validators.

(** ** Entries after a cache operation *)

Section lru_elems.
Implicit Types (kvs : list (string * string)).

Lemma lru_put_elem cap kvs k v e : e ∈ lru_put cap kvs k v → e = (k, v) ∨ e ∈ kvs.
Proof.
  unfold lru_put. cbv zeta. intros He.
  assert (He' : e ∈ (k, v) :: remove_key k kvs).
  { destruct (_ <? _)%Z; [|done]. eapply elem_of_sublist; [done|apply sublist_take]. }
  apply elem_of_cons in He' as [->|He']; [by left|right].
  unfold remove_key in He'. by apply list_elem_of_filter in He' as [_ ?].
Qed.

Lemma lru_get_elem kvs k e : e ∈ (lru_get kvs k).1 → e ∈ kvs.
Proof.
  unfold lru_get. destruct (list_find _ kvs) as [[i e']|] eqn:E; simpl; [|done].
  apply list_find_Some in E as (Hi & _ & _).
  intros [->|He]%elem_of_cons; [by eapply list_elem_of_lookup_2|].
  unfold remove_key in He. by apply list_elem_of_filter in He as [_ ?].
Qed.

Lemma lru_get_res kvs k v : (lru_get kvs k).2 = Some v → (k, v) ∈ kvs.
Proof.
  unfold lru_get. destruct (list_find _ kvs) as [[i [k' v']]|] eqn:E; simpl; [|done].
  apply list_find_Some in E as (Hi & Hk & _). simpl in Hk. subst k'.
  intros [= ->]. by eapply list_elem_of_lookup_2.
Qed.

Lemma lru_get_None kvs k : (lru_get kvs k).2 = None → (lru_get kvs k).1 = kvs.
Proof. unfold lru_get. by destruct (list_find _ kvs) as [[i e']|]. Qed.
End lru_elems.

(** ** Consequences of the invariant *)

Section inv_facts.
Import URLShortener.

Lemma Inv_url_nonempty s c u :
  Inv s → URLDatabase.code_to_url (db s) !! c = Some u → u ≠ EmptyString.
Proof.
  intros I H. apply (inv_bij s I) in H. apply (inv_valid s I) in H as [H _].
  by apply _is_valid_url_nonempty.
Qed.

Lemma Inv_get_url_truthy s c :
  Inv s →
  truthy_str (URLDatabase.get_url (db s) c)
  = bool_decide (is_Some (URLDatabase.code_to_url (db s) !! c)).
Proof.
  intros I. unfold URLDatabase.get_url.
  destruct (URLDatabase.code_to_url (db s) !! c) as [u|] eqn:E.
  - pose proof (Inv_url_nonempty _ _ _ I E). rewrite bool_decide_eq_true_2 by eauto.
    by destruct u.
  - rewrite bool_decide_eq_false_2; [done|]. by intros [? ?].
Qed.

Lemma Inv_get_code_truthy s u :
  Inv s →
  truthy_str (URLDatabase.get_code (db s) u)
  = bool_decide (is_Some (URLDatabase.url_to_code (db s) !! u)).
Proof.
  intros I. unfold URLDatabase.get_code.
  destruct (URLDatabase.url_to_code (db s) !! u) as [c|] eqn:E.
  - apply (inv_valid s I) in E as [_ ?]. rewrite bool_decide_eq_true_2 by eauto.
    by destruct c.
  - rewrite bool_decide_eq_false_2; [done|]. by intros [? ?].
Qed.

Lemma Inv_init cache_size : Inv (__init__ cache_size).
Proof.
  split; simpl.
  - exists []. split; [apply Rep_init|]. intros k v Hin. by apply elem_of_nil in Hin.
  - intros u c. by rewrite !lookup_empty.
  - intros u c. by rewrite lookup_empty.
  - intros c. by rewrite !lookup_empty.
Qed.
End inv_facts.

(** ** The outcomes of [create_short_url] *)

Section create.
Import URLShortener.

Lemma create_short_url_cases fuel t1 t2 s url cc ed s' r :
  Inv s →
  create_short_url fuel t1 t2 s url cc ed = Some (s', r) →
  (s' = s ∧
    ((r = (false, "Invalid URL format"%string) ∧ _is_valid_url url = false)
     ∨ (∃ c, r = (true, c) ∧ _is_valid_url url = true
            ∧ URLDatabase.url_to_code (db s) !! url = Some c)
     ∨ (∃ c, r = (false, "Invalid custom code"%string) ∧ cc = Some c
            ∧ c ≠ EmptyString ∧ _is_valid_code c = false
            ∧ _is_valid_url url = true
            ∧ URLDatabase.url_to_code (db s) !! url = None)
     ∨ (∃ c, r = (false, "Custom code already in use"%string) ∧ cc = Some c
            ∧ _is_valid_code c = true
            ∧ is_Some (URLDatabase.code_to_url (db s) !! c)
            ∧ _is_valid_url url = true
            ∧ URLDatabase.url_to_code (db s) !! url = None)))
  ∨ (∃ code, r = (true, code) ∧ _is_valid_url url = true
       ∧ created t2 (expiry_of t1 ed) s s' url code
       ∧ (truthy_str cc = true → cc = Some code ∧ _is_valid_code code = true
            ∧ URLDatabase.counter (db s') = URLDatabase.counter (db s))
       ∧ (truthy_str cc = false →
            ∃ s1, _generate_code fuel s 7 = Some (code, s1)
              ∧ URLDatabase.counter (db s') = URLDatabase.counter (db s1))).
Proof.
  intros I. unfold create_short_url.
  destruct (_is_valid_url url) eqn:Hv; simpl; [|intros [= <- <-]; left; eauto].
  rewrite (Inv_get_code_truthy _ _ I). case_bool_decide as Hex.
  { destruct Hex as [c Hc]. unfold URLDatabase.get_code. rewrite Hc. simpl.
    intros [= <- <-]. left. split; [done|]. right. left. eauto. }
  assert (Hu : URLDatabase.url_to_code (db s) !! url = None).
  { destruct (URLDatabase.url_to_code (db s) !! url) eqn:E; [|done].
    exfalso. apply Hex. eauto. }
  destruct (truthy_str cc) eqn:Hcc.
  - apply truthy_str_true in Hcc as (c & -> & Hc). simpl.
    destruct (_is_valid_code c) eqn:Hvc; simpl.
    2:{ intros [= <- <-]. left. split; [done|]. do 2 right. left.
        exists c. done. }
    rewrite (Inv_get_url_truthy _ _ I). case_bool_decide as Hin.
    { intros [= <- <-]. left. split; [done|]. do 3 right. exists c. done. }
    destruct (LRUCache.put (cache s) c url) as [c2|] eqn:Ep; simpl; [|done].
    intros [= <- <-]. right. exists c. split; [done|]. split; [done|].
    split; [|split; [done|]].
    + split; simpl; try done.
      destruct (URLDatabase.code_to_url (db s) !! c) eqn:E; [|done].
      exfalso. apply Hin. eauto.
    + intros Hf. exfalso. by destruct c.
  - destruct (_generate_code fuel s 7) as [[code s1]|] eqn:Eg; [|done].
    pose proof (_generate_code_Some _ _ _ _ Eg) as (Hn & Hcode & Hfree & _ & E1 & E2 & E3 & E4).
    destruct (LRUCache.put (cache s1) code url) as [c2|] eqn:Ep; simpl; [|done].
    intros [= <- <-]. right. exists code. split; [done|]. split; [done|].
    split; [|split; [done|]].
    + split; simpl; rewrite ?E1, ?E2, ?E3; try done.
      * revert Hfree.
        change (URLDatabase.code_to_url (db s) !! code)
          with (URLDatabase.get_url (db s) code).
        rewrite (Inv_get_url_truthy _ _ I). case_bool_decide as Hin; [done|].
        intros _. unfold URLDatabase.get_url.
        destruct (URLDatabase.code_to_url (db s) !! code) eqn:E; [|done].
        exfalso. apply Hin. eauto.
      * rewrite Hcode. apply code_of_nonempty.
      * lia.
      * by rewrite <- E4.
    + intros _. exists s1. done.
Qed.
End create.

(** ** The invariant is preserved *)

Section preserve.
Import URLShortener.

Lemma Inv_created t2 expiry s s' url code :
  Inv s → _is_valid_url url = true → created t2 expiry s s' url code → Inv s'.
Proof.
  intros I Hv [Hfu Hfc Hc Eu Ec Es _ Ep].
  destruct (inv_cache s I) as (l & R & Hcoh).
  destruct (put_spec _ _ code url R) as (c' & l' & Ep' & R' & _ & Hl').
  rewrite Ep in Ep'. injection Ep' as <-.
  split.
  - exists l'. split; [done|]. intros k v Hin. rewrite Hl' in Hin.
    apply lru_put_elem in Hin as [[= -> ->]|Hin]; rewrite Ec.
    + by rewrite lookup_insert_eq.
    + apply Hcoh in Hin. rewrite lookup_insert_ne; [done|]. congruence.
  - intros u c. rewrite Eu, Ec.
    destruct (decide (u = url)) as [->|Hu]; destruct (decide (c = code)) as [->|Hc'].
    + by rewrite !lookup_insert_eq.
    + rewrite lookup_insert_eq, lookup_insert_ne by done. split; [congruence|].
      intros H%(inv_bij s I). congruence.
    + rewrite lookup_insert_eq, lookup_insert_ne by done. split; [|congruence].
      intros H%(inv_bij s I). congruence.
    + rewrite !lookup_insert_ne by done. apply (inv_bij s I).
  - intros u c. rewrite Eu. destruct (decide (u = url)) as [->|Hu].
    + rewrite lookup_insert_eq. by intros [= <-].
    + rewrite lookup_insert_ne by done. apply (inv_valid s I).
  - intros c. rewrite Es, Ec. destruct (decide (c = code)) as [->|Hc'].
    + rewrite !lookup_insert_eq. split; eauto.
    + rewrite !lookup_insert_ne by done. apply (inv_stats s I).
Qed.

Lemma Inv_create fuel t1 t2 s url cc ed s' r :
  Inv s → create_short_url fuel t1 t2 s url cc ed = Some (s', r) → Inv s'.
Proof.
  intros I H. destruct (create_short_url_cases _ _ _ _ _ _ _ _ _ I H)
    as [[-> _]|(code & _ & Hv & Hcr & _)]; [done|].
  by eapply Inv_created.
Qed.

(** Visit counts apart, the stored records. *)
Lemma increment_visits_tables d c :
  URLDatabase.url_to_code (URLDatabase.increment_visits d c) = URLDatabase.url_to_code d
  ∧ URLDatabase.code_to_url (URLDatabase.increment_visits d c) = URLDatabase.code_to_url d
  ∧ URLDatabase.counter (URLDatabase.increment_visits d c) = URLDatabase.counter d.
Proof. unfold URLDatabase.increment_visits. by destruct (_ !! c). Qed.

Lemma increment_visits_stats d c c' :
  URLDatabase.stats (URLDatabase.increment_visits d c) !! c'
  = (λ st, if decide (c' = c)
           then URLDatabase.mkStats (URLDatabase.created_at st)
                  (URLDatabase.expires_at st) (URLDatabase.visit_count st + 1)
           else st) <$> URLDatabase.stats d !! c'.
Proof.
  unfold URLDatabase.increment_visits.
  destruct (URLDatabase.stats d !! c) as [st|] eqn:E; simpl.
  - destruct (decide (c' = c)) as [->|Hne].
    + by rewrite lookup_insert_eq, E.
    + rewrite lookup_insert_ne by done. by destruct (_ !! c').
  - destruct (decide (c' = c)) as [->|Hne].
    + by rewrite E.
    + by destruct (_ !! c').
Qed.

(** The outcomes of [get_long_url] in a state that satisfies the invariant. *)
Lemma get_long_url_cases now s code s' r :
  Inv s →
  get_long_url now s code = Some (s', r) →
  ∃ l l', Rep (cache s) l ∧ Rep (cache s') l'
    ∧ (∀ e, e ∈ l'.*2 → e ∈ l.*2 ∨ (e.1 = code ∧
          URLDatabase.code_to_url (db s) !! code = Some e.2))
    ∧ ((∃ v, LRUCache.peek (cache s) code = Some v ∧ r = (true, v)
            ∧ db s' = URLDatabase.increment_visits (db s) code)
       ∨ (LRUCache.peek (cache s) code = None ∧ cache s' = cache s ∧
          ((URLDatabase.code_to_url (db s) !! code = None
              ∧ r = (false, "URL not found"%string) ∧ db s' = db s)
           ∨ (∃ u st, URLDatabase.code_to_url (db s) !! code = Some u
                ∧ URLDatabase.stats (db s) !! code = Some st
                ∧ truthy_int (URLDatabase.expires_at st)
                  && (default 0 (URLDatabase.expires_at st) <? now)%Z = true
                ∧ r = (false, "URL has expired"%string) ∧ db s' = db s)))
       ∨ (LRUCache.peek (cache s) code = None ∧
          ∃ u st, URLDatabase.code_to_url (db s) !! code = Some u
            ∧ URLDatabase.stats (db s) !! code = Some st
            ∧ truthy_int (URLDatabase.expires_at st)
              && (default 0 (URLDatabase.expires_at st) <? now)%Z = false
            ∧ r = (true, u)
            ∧ db s' = URLDatabase.increment_visits (db s) code
            ∧ LRUCache.put (cache s) code u = Some (cache s'))).
Proof.
  intros I. destruct (inv_cache s I) as (l & R & Hcoh).
  destruct (get_spec _ _ code R) as (c1 & l1 & res & Eg & R1 & _ & Hspec).
  unfold get_long_url. rewrite Eg. simpl.
  assert (Hl1 : l1.*2 = (lru_get l.*2 code).1) by by rewrite <- Hspec.
  assert (Hres : res = (lru_get l.*2 code).2) by by rewrite <- Hspec.
  destruct res as [v|].
  - symmetry in Hres. apply lru_get_res in Hres.
    pose proof (Hcoh _ _ Hres) as Hc2u.
    pose proof (Inv_url_nonempty _ _ _ I Hc2u) as Hv.
    assert (truthy_str (Some v) = true) as -> by by destruct v.
    simpl. intros [= <- <-]. exists l, l1. split; [done|]. split; [done|].
    split.
    + intros e He. left. rewrite Hl1 in He. by apply lru_get_elem in He.
    + left. exists v. split; [|done]. by apply (peek_Rep _ _ _ _ R).
  - symmetry in Hres. apply lru_get_None in Hres. rewrite Hres in Hl1.
    assert (Hc1 : c1 = cache s).
    { unfold LRUCache.get in Eg. destruct (LRUCache.cache (cache s) !! code) as [x|] eqn:Ex.
      - exfalso. destruct (Rep_cache_Some _ _ _ _ R Ex) as (j & v & Hj).
        destruct (get_hit _ _ _ _ _ _ R Hj) as (c' & Eg' & _).
        unfold LRUCache.get in Eg'. rewrite Ex in Eg'. congruence.
      - by injection Eg as <-. }
    subst c1.
    assert (Hpeek : LRUCache.peek (cache s) code = None).
    { destruct (LRUCache.peek (cache s) code) as [v|] eqn:Ep; [|done]. exfalso.
      apply (peek_Rep _ _ _ _ R) in Ep.
      assert (Hk : code ∈ l.*2.*1).
      { apply list_elem_of_fmap. by exists (code, v). }
      pose proof (lru_get_keys l.*2 code (Rep_keys_NoDup _ _ R)) as [_ Hiff].
      apply Hiff in Hk as [? Hk]. rewrite <- Hspec in Hk. done. }
    simpl. rewrite (Inv_get_url_truthy _ _ I). simpl.
    case_bool_decide as Hin; simpl.
    2:{ intros [= <- <-]. exists l, l. split; [done|]. split; [by destruct s|].
        split; [by left|]. right. left. split; [done|]. split; [by destruct s|].
        left. split; [|by destruct s].
        destruct (_ !! code) eqn:E; [|done]. exfalso. apply Hin. eauto. }
    destruct Hin as [u Hu]. unfold URLDatabase.get_stats, URLDatabase.get_url.
    rewrite Hu. simpl.
    destruct (inv_stats s I code) as [_ [st Hst]]; [by eauto|]. rewrite Hst. simpl.
    destruct (truthy_int _ && _) eqn:Hexp.
    + intros [= <- <-]. exists l, l. split; [done|]. split; [by destruct s|].
      split; [by left|]. right. left. split; [done|]. split; [by destruct s|].
      right. exists u, st. by destruct s.
    + destruct (LRUCache.put (cache s) code u) as [c2|] eqn:Ep; simpl; [|done].
      intros [= <- <-].
      destruct (put_spec _ _ code u R) as (c' & l' & Ep' & R' & _ & Hl').
      rewrite Ep in Ep'. injection Ep' as <-.
      exists l, l'. split; [done|]. split; [done|]. split.
      * intros e He. rewrite Hl' in He. apply lru_put_elem in He as [->|?]; eauto.
      * do 2 right. split; [done|]. exists u, st. done.
Qed.

Lemma Inv_get_long_url now s code s' r :
  Inv s → get_long_url now s code = Some (s', r) → Inv s'.
Proof.
  intros I H.
  destruct (get_long_url_cases _ _ _ _ _ I H) as (l & l' & R & R' & Hsub & Hcases).
  destruct (inv_cache s I) as (l0 & R0 & Hcoh).
  assert (Hl : ∀ k v, (k, v) ∈ l.*2 → URLDatabase.code_to_url (db s) !! k = Some v).
  { intros k v Hin. apply (peek_Rep _ _ _ _ R) in Hin. apply (peek_Rep _ _ _ _ R0) in Hin.
    by apply Hcoh. }
  assert (Hdb : URLDatabase.url_to_code (db s') = URLDatabase.url_to_code (db s)
    ∧ URLDatabase.code_to_url (db s') = URLDatabase.code_to_url (db s)
    ∧ ∀ c, is_Some (URLDatabase.stats (db s') !! c)
           ↔ is_Some (URLDatabase.stats (db s) !! c)).
  { assert (Hinc : ∀ c, is_Some (URLDatabase.stats
               (URLDatabase.increment_visits (db s) code) !! c)
             ↔ is_Some (URLDatabase.stats (db s) !! c)).
    { intros c. rewrite increment_visits_stats. by rewrite fmap_is_Some. }
    assert (Hdb' : db s' = db s ∨ db s' = URLDatabase.increment_visits (db s) code).
    { destruct Hcases as [(v & _ & _ & ->)|[(_ & _ & [(_ & _ & ->)|(u & st & _ & _ & _ & _ & ->)])
        |(_ & u & st & _ & _ & _ & _ & -> & _)]]; eauto. }
    destruct Hdb' as [-> | ->]; [done|].
    destruct (increment_visits_tables (db s) code) as (-> & -> & _). done. }
  destruct Hdb as (Eu & Ec & Es).
  split.
  - exists l'. split; [done|]. intros k v Hin. rewrite Ec.
    apply Hsub in Hin as [Hin|[<- ?]]; [by apply Hl|done].
  - intros u c. rewrite Eu, Ec. apply (inv_bij s I).
  - intros u c. rewrite Eu. apply (inv_valid s I).
  - intros c. rewrite Es, Ec. apply (inv_stats s I).
Qed.

Lemma Inv_step s s' : Inv s → step s s' → Inv s'.
Proof.
  intros I H. destruct H; eauto using Inv_create, Inv_get_long_url.
Qed.

Lemma Inv_rtc s s' : Inv s → rtc step s s' → Inv s'.
Proof. intros I H. induction H; [done|]. apply IHrtc. by eapply Inv_step. Qed.

Lemma Inv_reachable s : reachable s → Inv s.
Proof. intros [cap H]. eapply Inv_rtc; [apply Inv_init|done]. Qed.
End preserve.

(** ** The operations return *)

Section totality.
Import URLShortener.

Lemma get_long_url_total now s code :
  Inv s → ∃ s' r, get_long_url now s code = Some (s', r).
Proof.
  intros I. destruct (inv_cache s I) as (l & R & Hcoh).
  destruct (get_spec _ _ code R) as (c1 & l1 & res & Eg & R1 & _ & Hspec).
  unfold get_long_url. rewrite Eg. simpl.
  destruct (truthy_str res); [by eauto|].
  destruct (negb _) eqn:Hn; [by eauto|]. apply negb_false_iff in Hn.
  rewrite (Inv_get_url_truthy _ _ I) in Hn. apply bool_decide_eq_true in Hn.
  destruct (inv_stats s I code) as [_ [st Hst]]; [done|].
  unfold URLDatabase.get_stats. simpl. rewrite Hst. simpl.
  destruct (truthy_int _ && _); [by eauto|].
  destruct (put_spec _ _ code (default ""%string (URLDatabase.get_url (db s) code)) R1)
    as (c2 & l2 & -> & _). simpl. eauto.
Qed.

Lemma create_short_url_total fuel t1 t2 s url cc ed :
  Inv s → size (URLDatabase.code_to_url (db s)) < fuel →
  ∃ s' r, create_short_url fuel t1 t2 s url cc ed = Some (s', r).
Proof.
  intros I Hf. destruct (inv_cache s I) as (l & R & Hcoh).
  unfold create_short_url.
  destruct (negb _); [by eauto|]. destruct (truthy_str (URLDatabase.get_code _ _)); [by eauto|].
  destruct (truthy_str cc).
  - destruct (negb _); [by eauto|]. destruct (truthy_str _); [by eauto|].
    destruct (put_spec _ _ (default ""%string cc) url R) as (c2 & l2 & -> & _).
    simpl. eauto.
  - destruct (_generate_code_terminates fuel s Hf) as [[code s1] Eg]. rewrite Eg.
    pose proof (_generate_code_Some _ _ _ _ Eg) as (_ & _ & _ & _ & _ & _ & _ & E4).
    rewrite E4. destruct (put_spec _ _ code url R) as (c2 & l2 & -> & _).
    simpl. eauto.
Qed.

Lemma create_short_url_fuel_mono fuel fuel' t1 t2 s url cc ed res :
  fuel ≤ fuel' →
  create_short_url fuel t1 t2 s url cc ed = Some res →
  create_short_url fuel' t1 t2 s url cc ed = Some res.
Proof.
  intros Hle. unfold create_short_url.
  destruct (negb _); [done|]. destruct (truthy_str (URLDatabase.get_code _ _)); [done|].
  destruct (truthy_str cc); [done|].
  destruct (_generate_code fuel s 7) as [p|] eqn:Eg; [|done].
  by rewrite (_generate_code_fuel_mono _ _ _ _ Hle Eg).
Qed.
End totality.

(** ** What calls leave alone *)

Section frames.
Import URLShortener.

Lemma step_counter_mono s s' :
  step s s' → (URLDatabase.counter (db s) ≤ URLDatabase.counter (db s'))%N.
Proof.
  intros [fuel t1 t2 s0 url cc ed s1 r H|now s0 code s1 r H|]; [| |done].
  - unfold create_short_url in H.
    destruct (negb _); [by simplify_eq|].
    destruct (truthy_str (URLDatabase.get_code _ _)); [by simplify_eq|].
    destruct (truthy_str cc).
    + destruct (negb _); [by simplify_eq|]. destruct (truthy_str _); [by simplify_eq|].
      destruct (LRUCache.put _ _ _); simpl in H; by simplify_eq.
    + destruct (_generate_code fuel s0 7) as [[code s2]|] eqn:Eg; [|done].
      destruct (LRUCache.put _ _ _); simpl in H; [|done]. simplify_eq. simpl.
      pose proof (_generate_code_Some _ _ _ _ Eg) as (? & _). lia.
  - unfold get_long_url in H.
    destruct (LRUCache.get _ _) as [[c1 res]|]; simpl in H; [|done].
    destruct (truthy_str res).
    { simplify_eq. simpl. by destruct (increment_visits_tables (db s0) code) as (_ & _ & ->). }
    destruct (negb _); [by simplify_eq|].
    destruct (URLDatabase.get_stats _ _); simpl in H; [|done].
    destruct (truthy_int _ && _); [by simplify_eq|].
    destruct (LRUCache.put _ _ _); simpl in H; [|done]. simplify_eq. simpl.
    by destruct (increment_visits_tables (db s0) code) as (_ & _ & ->).
Qed.

Lemma rtc_counter_mono s s' :
  rtc step s s' → (URLDatabase.counter (db s) ≤ URLDatabase.counter (db s'))%N.
Proof.
  induction 1 as [|s1 s2 s3 H _ IH]; [done|]. pose proof (step_counter_mono _ _ H). lia.
Qed.

Lemma step_record s s' c u st :
  Inv s → step s s' →
  URLDatabase.code_to_url (db s) !! c = Some u →
  URLDatabase.stats (db s) !! c = Some st →
  URLDatabase.code_to_url (db s') !! c = Some u
  ∧ ∃ st', URLDatabase.stats (db s') !! c = Some st' ∧ same_record st st'.
Proof.
  assert (Hrefl : same_record st st) by by split.
  intros I Hstep. revert I.
  destruct Hstep as [fuel t1 t2 s0 url cc ed s1 r H|now s0 code s1 r H|];
    intros I Hc Hs; [| |by eauto].
  - destruct (create_short_url_cases _ _ _ _ _ _ _ _ _ I H)
      as [[-> _]|(code & _ & _ & [_ Hfc _ _ Ec Es _ _] & _)]; [by eauto|].
    assert (c ≠ code) by congruence.
    rewrite Ec, Es, !lookup_insert_ne by done. by eauto.
  - destruct (get_long_url_cases _ _ _ _ _ I H) as (_ & _ & _ & _ & _ & Hcases).
    assert (Hdb : db s1 = db s0 ∨ db s1 = URLDatabase.increment_visits (db s0) code).
    { destruct Hcases as [(v & _ & _ & ->)|[(_ & _ & [(_ & _ & ->)|(u' & st' & _ & _ & _ & _ & ->)])
        |(_ & u' & st' & _ & _ & _ & _ & -> & _)]]; eauto. }
    destruct Hdb as [-> | ->]; [by eauto|].
    destruct (increment_visits_tables (db s0) code) as (_ & -> & _).
    split; [done|]. rewrite increment_visits_stats, Hs. simpl.
    eexists. split; [done|]. by case_decide.
Qed.

Lemma rtc_record s s' c u st :
  Inv s → rtc step s s' →
  URLDatabase.code_to_url (db s) !! c = Some u →
  URLDatabase.stats (db s) !! c = Some st →
  URLDatabase.code_to_url (db s') !! c = Some u
  ∧ ∃ st', URLDatabase.stats (db s') !! c = Some st' ∧ same_record st st'.
Proof.
  intros I H. revert u st I. induction H as [|s1 s2 s3 H _ IH]; intros u st I Hc Hs.
  - split; [done|]. by exists st.
  - destruct (step_record _ _ _ _ _ I H Hc Hs) as (Hc2 & st2 & Hs2 & E1 & E2).
    destruct (IH u st2 (Inv_step _ _ I H) Hc2 Hs2) as (Hc3 & st3 & Hs3 & E3 & E4).
    split; [done|]. exists st3. split; [done|]. split; congruence.
Qed.
End frames.

(** ** The concrete states are reachable *)

Section demo.
Import URLShortener.

Lemma reachable_init cache_size : reachable (__init__ cache_size).
Proof. exists cache_size. apply rtc_refl. Qed.

Lemma reachable_step s s' : reachable s → step s s' → reachable s'.
Proof. intros [cap H] Hs. exists cap. eapply rtc_r; eauto. Qed.

Lemma reachable_after_create fuel now s url cc ed :
  reachable s → reachable (after_create fuel now s url cc ed).
Proof.
  intros H. unfold after_create.
  destruct (create_short_url fuel now now s url cc ed) as [[s' r]|] eqn:E; [|done].
  eapply reachable_step; [done|]. by eapply step_create.
Qed.

Lemma reachable_demo_a : reachable demo_a.
Proof. apply reachable_after_create, reachable_init. Qed.

Lemma reachable_demo_ab : reachable demo_ab.
Proof. apply reachable_after_create, reachable_demo_a. Qed.
End demo.

(** * The claims

    ** Idempotent creation *)

Section claim_idempotence.
Import URLShortener.

(** C1.  Creation is idempotent per long URL: in every reachable state, a
    long URL that already has a code is answered with that code, whatever
    custom code, expiry, clock readings or loop bound the call is given, and
    the whole state (store, statistics, cache, counter) is left as it was. *)
Theorem create_short_url_idempotent s long_url code :
  reachable s →
  URLDatabase.get_code (db s) long_url = Some code →
  ∀ fuel now_expiry now_store custom_code expiry_days,
    create_short_url fuel now_expiry now_store s long_url custom_code expiry_days
    = Some (s, (true, code)).
Proof.
  intros I%Inv_reachable Hc fuel t1 t2 cc ed. unfold create_short_url.
  destruct (inv_valid s I _ _ Hc) as [-> Hne]. simpl.
  rewrite Hc. by destruct code.
Qed.

Lemma create_short_url_idempotent_witness :
  create_short_url 1 99 99 demo_a "https://example.com/a" (Some "ABCDEFG"%string) (Some 30%Z)
  = Some (demo_a, (true, "0000001"%string)).
Proof.
  apply (create_short_url_idempotent demo_a "https://example.com/a" "0000001").
  - apply reachable_demo_a.
  - vm_compute. reflexivity.
Defined.
End claim_idempotence.

(** ** Collisions, uniqueness, coherence, absent keys, empty custom code *)

Section claim_store.
Import URLShortener.

Lemma step_after_create fuel now s url cc ed :
  rtc step s (after_create fuel now s url cc ed).
Proof.
  unfold after_create.
  destruct (create_short_url fuel now now s url cc ed) as [[s' r]|] eqn:E; [|done].
  apply rtc_once. by eapply step_create.
Qed.

(** C6 (amended).  In every reachable state, asking for a custom code that
    the store already maps to some URL, for a valid long URL that has no
    code yet, fails and returns the state unchanged: store, statistics,
    cache and counter.  The message is "Custom code already in use" when
    the code has the custom-code format (7 alphabet characters, line 113),
    and "Invalid custom code" when it has not: the format check of line 113
    comes before the lookup of line 115. *)
Theorem custom_code_collision s custom_code long_url url0 :
  reachable s →
  URLDatabase.get_url (db s) custom_code = Some url0 →
  _is_valid_url long_url = true →
  URLDatabase.get_code (db s) long_url = None →
  ∀ fuel now_expiry now_store expiry_days,
    create_short_url fuel now_expiry now_store s long_url (Some custom_code) expiry_days
    = Some (s, (false, if _is_valid_code custom_code
                       then "Custom code already in use"%string
                       else "Invalid custom code"%string)).
Proof.
  intros I%Inv_reachable Hc Hvu Hu fuel t1 t2 ed. unfold create_short_url.
  rewrite Hvu, Hu.
  assert (custom_code ≠ EmptyString) as Hne.
  { apply (inv_bij s I) in Hc. by apply (inv_valid s I) in Hc as [_ ?]. }
  destruct custom_code as [|a rest]; [done|].
  cbn [negb truthy_str]. simpl (default _ _).
  destruct (_is_valid_code (String a rest)); cbn [negb]; [|done].
  rewrite (Inv_get_url_truthy _ _ I).
  rewrite bool_decide_eq_true_2; [done|]. by exists url0.
Qed.

Lemma custom_code_collision_witness :
  create_short_url 1 20 20 demo_ab "https://example.com/c" (Some "ABCDEFG"%string) None
  = Some (demo_ab, (false, "Custom code already in use"%string)).
Proof.
  apply (custom_code_collision demo_ab "ABCDEFG" "https://example.com/c"
           "https://example.com/b").
  - apply reachable_demo_ab.
  - vm_compute. reflexivity.
  - vm_compute. reflexivity.
  - vm_compute. reflexivity.
Defined.

(** C7.  In every reachable state the two dictionaries of the store are
    inverse to each other; hence two long URLs with the same code are the
    same URL, and two codes with the same long URL are the same code. *)
Theorem store_uniqueness s :
  reachable s →
  (∀ long_url code,
     URLDatabase.url_to_code (db s) !! long_url = Some code
     ↔ URLDatabase.code_to_url (db s) !! code = Some long_url)
  ∧ (∀ url1 url2 code,
       URLDatabase.get_code (db s) url1 = Some code →
       URLDatabase.get_code (db s) url2 = Some code → url1 = url2)
  ∧ (∀ code1 code2 long_url,
       URLDatabase.get_url (db s) code1 = Some long_url →
       URLDatabase.get_url (db s) code2 = Some long_url → code1 = code2).
Proof.
  intros I%Inv_reachable. split; [apply (inv_bij s I)|]. split.
  - intros u1 u2 c H1%(inv_bij s I) H2%(inv_bij s I). congruence.
  - intros c1 c2 u H1%(inv_bij s I) H2%(inv_bij s I). congruence.
Qed.

Lemma store_uniqueness_witness :
  URLDatabase.code_to_url (db demo_ab) !! "ABCDEFG"%string
  = Some "https://example.com/b"%string.
Proof.
  destruct (store_uniqueness demo_ab reachable_demo_ab) as [H _].
  apply H. vm_compute. reflexivity.
Defined.

(** C8.  In every reachable state every key of the cache dictionary is a
    code of the store, and the value cached for it is the URL the store
    holds for that code; the same holds for every entry of the linked
    list. *)
Theorem cache_store_coherence s :
  reachable s →
  (∀ key, is_Some (LRUCache.cache (cache s) !! key) →
     ∃ long_url, LRUCache.peek (cache s) key = Some long_url
       ∧ URLDatabase.get_url (db s) key = Some long_url)
  ∧ (∀ key long_url, (key, long_url) ∈ LRUCache.to_list (cache s) →
       URLDatabase.get_url (db s) key = Some long_url).
Proof.
  intros I%Inv_reachable. destruct (inv_cache s I) as (l & R & Hcoh). split.
  - intros k [i Hi]. destruct (Rep_cache_Some _ _ _ _ R Hi) as (j & v & Hj).
    assert (Hin : (k, v) ∈ l.*2).
    { apply list_elem_of_fmap. exists (i, (k, v)). split; [done|].
      by eapply list_elem_of_lookup_2. }
    exists v. split; [by apply (peek_Rep _ _ _ _ R)|by apply Hcoh].
  - intros k v Hin. rewrite (to_list_Wf _ _ (rep_wf _ _ R)) in Hin. by apply Hcoh.
Qed.

Lemma cache_store_coherence_witness :
  ∃ long_url, LRUCache.peek (cache demo_ab) "ABCDEFG" = Some long_url
    ∧ URLDatabase.get_url (db demo_ab) "ABCDEFG" = Some long_url.
Proof.
  apply (cache_store_coherence demo_ab).
  - apply reachable_demo_ab.
  - vm_compute. by eexists.
Defined.

(** C9.  [get] of a key that is not in the dictionary returns [None] and
    the cache unchanged: dictionary, list order and node contents. *)
Theorem lru_get_absent (c : LRUCache.t) (key : string) :
  LRUCache.cache c !! key = None → LRUCache.get c key = Some (c, None).
Proof.
  intros Habsent. unfold LRUCache.get.
  destruct (LRUCache.cache c !! key) as [node|] eqn:E; [discriminate Habsent|].
  reflexivity.
Qed.

Lemma lru_get_absent_witness :
  LRUCache.get (cache demo_ab) "0000001" = Some (cache demo_ab, None).
Proof. apply (lru_get_absent (cache demo_ab) "0000001"). vm_compute. reflexivity. Defined.


End claim_store.

(** ** Expiry *)

Section claim_expiry.
Import URLShortener.

Lemma peek_cache_None c k : LRUCache.cache c !! k = None → LRUCache.peek c k = None.
Proof. unfold LRUCache.peek. by intros ->. Qed.

(** C2 (amended).  A record created with a positive [expiry_days = d] at a
    non-negative clock reading [now_expiry] expires at
    [now_expiry + d*86400]; [created_at] is the second reading,
    [now_store], taken inside [store].  In every later state in which the
    code is not in the cache, [get_long_url] succeeds with the URL while the
    clock is at or before that instant, and fails with "URL has expired",
    changing nothing (the record stays, the cache is not refilled), once the
    clock is strictly after it. *)
Theorem expiry_boundary s0 fuel now_expiry now_store long_url custom_code d s1 code s2 now :
  reachable s0 → (0 < d)%Z → (0 ≤ now_expiry)%Z →
  URLDatabase.get_code (db s0) long_url = None →
  create_short_url fuel now_expiry now_store s0 long_url custom_code (Some d)
    = Some (s1, (true, code)) →
  rtc step s1 s2 →
  LRUCache.cache (cache s2) !! code = None →
  let expires := (now_expiry + d * 86400)%Z in
  (∃ st, URLDatabase.get_stats (db s2) code = Some st
     ∧ URLDatabase.created_at st = now_store
     ∧ URLDatabase.expires_at st = Some expires)
  ∧ URLDatabase.get_url (db s2) code = Some long_url
  ∧ ((now ≤ expires)%Z →
       ∃ s3, get_long_url now s2 code = Some (s3, (true, long_url)))
  ∧ ((expires < now)%Z →
       get_long_url now s2 code = Some (s2, (false, "URL has expired"%string))).
Proof.
  intros I0%Inv_reachable Hd Ht Hu Hcr Hsteps Hmiss expires.
  unfold URLDatabase.get_code in Hu.
  destruct (create_short_url_cases _ _ _ _ _ _ _ _ _ I0 Hcr)
    as [[_ [[? _]|[(c & _ & _ & ?)|[(c & ? & _)|(c & ? & _)]]]]
       |(c & [= <-] & Hv & Hcreated & _)]; try congruence.
  pose proof (Inv_created _ _ _ _ _ _ I0 Hv Hcreated) as I1.
  destruct Hcreated as [_ _ _ _ Ec Es _ _].
  assert (Hexp : expiry_of now_expiry (Some d) = Some expires).
  { unfold expiry_of, expires. simpl. destruct (Z.eqb_spec d 0); [lia|]. simpl.
    f_equal. lia. }
  rewrite Hexp in Es.
  destruct (rtc_record s1 s2 code long_url (URLDatabase.mkStats now_store (Some expires) 0)
              I1 Hsteps) as (Hc2 & st & Hs2 & E1 & E2).
  { by rewrite Ec, lookup_insert_eq. } { by rewrite Es, lookup_insert_eq. }
  simpl in E1, E2. pose proof (Inv_rtc _ _ I1 Hsteps) as I2.
  split; [by exists st|]. split; [done|].
  destruct (get_long_url_total now s2 code I2) as (s3 & r & Hget).
  pose proof (peek_cache_None _ _ Hmiss) as Hpeek.
  assert (Hcond : truthy_int (URLDatabase.expires_at st)
                  && (default 0 (URLDatabase.expires_at st) <? now)%Z
                  = (expires <? now)%Z).
  { rewrite E2. simpl. destruct (Z.eqb_spec expires 0); [unfold expires in *; lia|done]. }
  destruct (get_long_url_cases _ _ _ _ _ I2 Hget) as (_ & _ & _ & _ & _ & Hcases).
  destruct Hcases as [(v & ? & _)|[(_ & Ecache & [(? & _)|(u & st' & Hu' & Hst' & Hc & -> & Edb)])
    |(_ & u & st' & Hu' & Hst' & Hc & -> & _)]]; try congruence.
  - assert (st' = st) as -> by congruence. rewrite Hcond in Hc.
    apply Z.ltb_lt in Hc. split; [lia|]. intros _. rewrite Hget. f_equal. f_equal.
    destruct s2, s3. simpl in *. congruence.
  - assert (st' = st) as -> by congruence. rewrite Hcond in Hc.
    apply Z.ltb_ge in Hc. split; [|lia]. intros _. exists s3. rewrite Hget.
    repeat f_equal. congruence.
Qed.

Lemma expiry_boundary_witness :
  ∃ s3, get_long_url 86400 demo_ab "0000001"
        = Some (s3, (true, "https://example.com/a"%string)).
Proof.
  apply (expiry_boundary (__init__ 1) 1 0 0 "https://example.com/a" None 1
           demo_a "0000001" demo_ab 86400).
  - apply reachable_init.
  - lia.
  - lia.
  - vm_compute. reflexivity.
  - vm_compute. reflexivity.
  - apply step_after_create.
  - vm_compute. reflexivity.
  - vm_compute. discriminate.
Defined.

(** At the instant [created_at + d*86400] itself the code still resolves. *)
Lemma expiry_boundary_counterexample :
  reachable demo_ab
  ∧ URLDatabase.get_stats (db demo_ab) "0000001"
    = Some (URLDatabase.mkStats 0 (Some (0 + 1 * 86400)%Z) 0)
  ∧ LRUCache.cache (cache demo_ab) !! "0000001"%string = None
  ∧ (snd <$> get_long_url (0 + 1 * 86400) demo_ab "0000001")
    = Some (true, "https://example.com/a"%string).
Proof. split; [apply reachable_demo_ab|]. vm_compute. done. Qed.
End claim_expiry.

(** ** Cache hits *)

Section claim_cache_hit.
Import URLShortener.

(** C5.  When [self.cache.get] returns a URL, [get_long_url] returns it as
    success for every clock reading and adds one to the visit count of the
    code in the store; the expiry is not looked at.  And there is a
    reachable state with a code whose expiry time has passed that still
    resolves, because the code is still cached. *)
Theorem cache_hit_skips_expiry :
  (∀ s short_code cache1 cached_url now,
     reachable s →
     LRUCache.get (cache s) short_code = Some (cache1, Some cached_url) →
     get_long_url now s short_code
       = Some ({| db := URLDatabase.increment_visits (db s) short_code;
                  cache := cache1 |}, (true, cached_url))
     ∧ ∃ st, URLDatabase.get_stats (db s) short_code = Some st
         ∧ URLDatabase.get_stats (URLDatabase.increment_visits (db s) short_code)
             short_code
           = Some (URLDatabase.mkStats (URLDatabase.created_at st)
                     (URLDatabase.expires_at st) (URLDatabase.visit_count st + 1)))
  ∧ (∃ s short_code st expires now s' long_url,
       reachable s
       ∧ URLDatabase.get_stats (db s) short_code = Some st
       ∧ URLDatabase.expires_at st = Some expires
       ∧ (expires < now)%Z
       ∧ get_long_url now s short_code = Some (s', (true, long_url))).
Proof.
  split.
  - intros s code c1 url now I%Inv_reachable Hget.
    destruct (inv_cache s I) as (l & R & Hcoh).
    destruct (get_spec _ _ code R) as (c1' & l1 & res & Eg & _ & _ & Hspec).
    rewrite Hget in Eg. injection Eg as <- <-.
    assert (Hin : (code, url) ∈ l.*2).
    { apply lru_get_res. by rewrite <- Hspec. }
    apply Hcoh in Hin. pose proof (Inv_url_nonempty _ _ _ I Hin) as Hne.
    split.
    + unfold get_long_url. rewrite Hget. simpl. by destruct url.
    + destruct (inv_stats s I code) as [_ [st Hst]]; [by eauto|].
      exists st. split; [done|]. unfold URLDatabase.get_stats.
      rewrite increment_visits_stats, Hst. simpl. by rewrite decide_True.
  - exists demo_a, "0000001"%string, (URLDatabase.mkStats 0 (Some 86400%Z) 0),
      86400%Z, 100000%Z.
    eexists _, _. split; [apply reachable_demo_a|].
    split; [by vm_compute|]. split; [done|]. split; [lia|]. vm_compute. reflexivity.
Qed.

Lemma cache_hit_skips_expiry_witness :
  (snd <$> get_long_url 100000 demo_a "0000001")
  = Some (true, "https://example.com/a"%string).
Proof.
  destruct cache_hit_skips_expiry as [H _].
  destruct (LRUCache.get (cache demo_a) "0000001") as [[c1 r]|] eqn:E;
    [|by vm_compute in E].
  assert (r = Some "https://example.com/a"%string) as ->.
  { assert (snd <$> LRUCache.get (cache demo_a) "0000001"
            = Some (Some "https://example.com/a"%string)) as E' by (vm_compute; reflexivity).
    rewrite E in E'. by injection E'. }
  destruct (H demo_a "0000001"%string c1 "https://example.com/a"%string 100000%Z
              reachable_demo_a E) as [-> _].
  reflexivity.
Defined.
End claim_cache_hit.

(** ** LRU eviction *)

Section claim_lru.
Import LRUCache.

(** C4.  For a capacity [C >= 1] and any sequence of [get] and [put] calls
    on a new cache, let [r] be the keys the sequence touches, ordered by
    last touch ([recency]: every [put] touches its key, a [get] touches it
    when the key is among the [C] most recently touched).  Then the calls
    all return, every [get] of the sequence returned a value exactly when
    [recency] counts it as a touch, the linked list holds exactly the first
    [C] keys of [r] in that order, the dictionary has the same key set, and
    there are exactly [C] of them once more than [C] distinct keys were
    touched.  In the cache so reached, a [get] returns the stored value and
    moves the key to the front exactly when the key is cached, and returns
    [None] and changes no order otherwise; a [put] puts the key and its
    value at the front, leaves at most [C] keys, evicts exactly the last key
    of the list (the least recently used one) when the key is new and the
    cache is full, and evicts nothing otherwise. *)
Theorem lru_eviction_correct (C : Z) (ops : list cache_op) :
  (1 ≤ C)%Z →
  let r := recency (Z.to_nat C) ops [] in
  ∃ c,
    run_ops ops (__init__ C) [] = Some (c, r)
    ∧ NoDup r
    ∧ keys c = take (Z.to_nat C) r
    ∧ dom (cache c) = list_to_set (take (Z.to_nat C) r)
    ∧ (Z.to_nat C < length r → length (keys c) = Z.to_nat C)
    ∧ (∀ key, ∃ c' res,
         get c key = Some (c', res)
         ∧ (is_Some res ↔ key ∈ keys c)
         ∧ (∀ value, res = Some value ↔ (key, value) ∈ to_list c)
         ∧ keys c' = if decide (key ∈ keys c) then touch key (keys c) else keys c)
    ∧ ∀ key value, ∃ c',
        put c key value = Some c'
        ∧ to_list c' !! 0 = Some (key, value)
        ∧ (Z.of_nat (size (cache c')) ≤ C)%Z
        ∧ dom (cache c') = list_to_set (keys c')
        ∧ keys c' =
            if decide ((key ∉ keys c) ∧ length (keys c) = Z.to_nat C)
            then key :: take (length (keys c) - 1) (keys c)
            else touch key (keys c).
Proof.
  intros HC r.
  destruct (run_ops_inv C ops HC (__init__ C) [] [] (Rep_init C) eq_refl)
    as (c & l & r' & Hrun & R & Hcap & Hk & ND & Hr); [by rewrite take_nil|constructor|].
  fold r in Hr. subst r'.
  exists c. split; [done|]. split; [done|].
  pose proof (keys_Rep _ _ R) as Hkeys. rewrite Hk in Hkeys.
  split; [done|]. split; [by rewrite (dom_Rep _ _ R), Hk|].
  split; [intros Hlt; rewrite Hkeys, length_take; lia|].
  split.
  { intros k. destruct (get_spec c l k R) as (c' & l' & res & E & R' & _ & Hspec).
    pose proof (Rep_keys_NoDup _ _ R) as NDk.
    pose proof (lru_get_keys l.*2 k NDk) as [Hks Hres].
    rewrite <- Hspec in Hks, Hres. simpl in Hks, Hres.
    exists c', res. split; [done|].
    rewrite (keys_Rep _ _ R'), (keys_Rep _ _ R), (to_list_Wf _ _ (rep_wf _ _ R)).
    split; [done|]. split; [|done].
    intros v. split.
    - intros ->. apply lru_get_res. by rewrite <- Hspec.
    - intros Hin. apply list_elem_of_lookup_1 in Hin as [j Hj].
      rewrite (lru_get_hit l.*2 j k v NDk Hj) in Hspec. by injection Hspec. }
  intros k v. destruct (put_spec c l k v R) as (c' & l' & Hput & R' & Hcap' & Hspec).
  exists c'. split; [done|].
  pose proof (keys_Rep _ _ R') as Hkeys'.
  rewrite Hspec, lru_put_keys, Hk, <- Hkeys, Hcap in Hkeys'. cbv zeta in Hkeys'.
  assert (Hlen : length (keys c) ≤ Z.to_nat C).
  { rewrite Hkeys, length_take. lia. }
  assert (Hfin : keys c' =
            if decide ((k ∉ keys c) ∧ length (keys c) = Z.to_nat C)
            then k :: take (length (keys c) - 1) (keys c)
            else touch k (keys c)).
  { rewrite Hkeys'. case_decide as Hd.
    - destruct Hd as [Hnin Hfull]. unfold touch.
      rewrite (filter_ne_id _ _ Hnin). simpl length.
      destruct (Z.ltb_spec C (Z.of_nat (S (length (keys c))))); [|lia].
      replace (S (length (keys c)) - 1) with (S (length (keys c) - 1)) by lia. done.
    - destruct (Z.ltb_spec C (Z.of_nat (length (touch k (keys c))))) as [Hlt|]; [|done].
      exfalso. apply Hd. unfold touch in Hlt. simpl in Hlt.
      destruct (decide (k ∈ keys c)) as [Hin|Hnin].
      + pose proof (length_filter_ne_lt _ _ Hin). lia.
      + split; [done|]. rewrite (filter_ne_id _ _ Hnin) in Hlt. lia. }
  split; [|split; [|split; [|done]]].
  - rewrite (to_list_Wf _ _ (rep_wf _ _ R')), Hspec. unfold lru_put. cbv zeta.
    rewrite Hcap. destruct (Z.ltb_spec C (Z.of_nat (length ((k, v) :: remove_key k l.*2))))
      as [Hlt|]; [|done].
    simpl length in *. destruct (remove_key k l.*2) as [|e rest]; [simpl in Hlt; lia|done].
  - rewrite (rep_size _ _ R'). rewrite <- (length_fmap snd), <- (length_fmap fst).
    rewrite <- (keys_Rep _ _ R'), Hfin. case_decide as Hd.
    + destruct Hd as [_ Hfull]. simpl. rewrite length_take. lia.
    + unfold touch. simpl. destruct (decide (k ∈ keys c)) as [Hin|Hnin].
      * pose proof (length_filter_ne_lt _ _ Hin). lia.
      * rewrite (filter_ne_id _ _ Hnin).
        assert (length (keys c) ≠ Z.to_nat C) by (intros ?; by apply Hd). lia.
  - by rewrite (dom_Rep _ _ R'), (keys_Rep _ _ R').
Qed.

Lemma lru_eviction_correct_witness :
  ∃ c,
    run_ops [Put "a" "1"; Put "b" "2"; Get "a"; Put "c" "3"] (__init__ 2) []
      = Some (c, ["c"; "a"; "b"]%string)
    ∧ keys c = ["c"; "a"]%string.
Proof.
  destruct (lru_eviction_correct 2 [Put "a" "1"; Put "b" "2"; Get "a"; Put "c" "3"])
    as (c & H1 & _ & H2 & _); [lia|].
  by exists c.
Defined.

Example lru_eviction_example :
  (λ p, (keys p.1, p.2)) <$>
    run_ops [Put "a" "1"; Put "b" "2"; Get "a"; Put "c" "3"; Get "b"] (__init__ 2) []
  = Some (["c"; "a"], ["c"; "a"; "b"])%string.
Proof. vm_compute. reflexivity. Qed.
End claim_lru.

(** ** Generated codes *)

Section claim_format.
Import URLShortener.

(** C3 (amended).  The code the generation loop returns is the base-62
    encoding of the sequence number [n] it stopped at, left-padded with the
    first character of the alphabet to at least 7 characters: exactly 7
    characters precisely when [n < 62^7], only alphabet characters, and
    decoding it gives back [n].  Sequence numbers are never reused: the loop
    tries [counter+1 .. n] in order, [n] is above the counter of every
    earlier state, and every later generation stops at a larger number and
    returns a different code. *)
Theorem generated_code_format fuel s code s1 :
  _generate_code fuel s 7 = Some (code, s1) →
  let n := URLDatabase.counter (db s1) in
  code = rjust 7 "0" (_encode_base62 n)
  ∧ 7 ≤ String.length code
  ∧ ((n < 62 ^ 7)%N ↔ String.length code = 7)
  ∧ all_chars (λ c, char_in c charset) code = true
  ∧ code = String.string_of_list_ascii
             (replicate (7 - String.length (_encode_base62 n)) (charset_at 0))
           +:+ _encode_base62 n
  ∧ decode code = n
  ∧ (URLDatabase.counter (db s) < n)%N
  ∧ (∀ m, (URLDatabase.counter (db s) < m < n)%N →
       truthy_str (URLDatabase.get_url (db s) (rjust 7 "0" (_encode_base62 m))) = true)
  ∧ (∀ s_before, rtc step s_before s →
       (URLDatabase.counter (db s_before) < n)%N)
  ∧ (∀ s' s_after,
       URLDatabase.counter (db s') = n → rtc step s' s_after →
       ∀ fuel' code' s1', _generate_code fuel' s_after 7 = Some (code', s1') →
         (n < URLDatabase.counter (db s1'))%N ∧ code' ≠ code).
Proof.
  intros H n. pose proof (_generate_code_Some _ _ _ _ H) as ([Hlt _] & Hc & _ & Hm & _).
  fold n in Hlt, Hc, Hm. fold (code_of n). subst code.
  split; [done|]. split; [rewrite code_of_length; lia|].
  split; [apply code_of_length_7|]. split; [apply code_of_chars|].
  split; [done|]. split; [apply decode_code_of|]. split; [done|].
  split; [exact Hm|]. split.
  - intros s_before Hb%rtc_counter_mono. lia.
  - intros s' s_after Hn Ha%rtc_counter_mono fuel' code' s1' H'.
    pose proof (_generate_code_Some _ _ _ _ H') as ([Hlt' _] & Hc' & _).
    split; [lia|]. rewrite Hc'. intros Heq%code_of_inj. lia.
Qed.

Lemma generated_code_format_witness :
  String.length "0000001" = 7 ∧ decode "0000001" = 1%N.
Proof.
  destruct (generated_code_format 1 (__init__ 1000) "0000001"
              {| db := URLDatabase.bump_counter (db (__init__ 1000));
                 cache := cache (__init__ 1000) |})
    as (_ & _ & Hl & _ & _ & Hd & _).
  - vm_compute. reflexivity.
  - split; [apply Hl; reflexivity|exact Hd].
Defined.

End claim_format.

(** ** Counters up to [62^7] are reachable *)

Section late.
Import URLShortener.

Lemma append_inj_l (p s1 s2 : string) : p +:+ s1 = p +:+ s2 → s1 = s2.
Proof. induction p as [|c p IH]; simpl; [done|]. intros [= H]. by apply IH. Qed.

Lemma url_of_inj i j : url_of i = url_of j → i = j.
Proof. intros H%append_inj_l. by apply code_of_inj. Qed.

Lemma split_cons_ne sep s : split sep s ≠ [].
Proof.
  induction s as [|c s IH]; simpl; [done|].
  destruct (Ascii.eqb c sep); [done|]. by destruct (split sep s).
Qed.

Lemma url_of_valid i : (i ≤ 62 ^ 7)%N → _is_valid_url (url_of i) = true.
Proof.
  intros Hi. unfold _is_valid_url.
  assert (Hlen : String.length (url_of i) ≤ 2048).
  { unfold url_of. rewrite length_append, code_of_length. simpl String.length.
    pose proof (_encode_base62_length_upper i 8). 
    assert (i < 62 ^ N.of_nat 8)%N by (change (62 ^ N.of_nat 8)%N with (62 * 62 ^ 7)%N; lia).
    lia. }
  destruct (Nat.ltb_spec 2048 (String.length (url_of i))); [lia|].
  unfold url_of. simpl.
  destruct (split "/" (code_of i)) as [|p ps] eqn:E; [by apply split_cons_ne in E|].
  reflexivity.
Qed.

(** Shortening [url_of 1], [url_of 2], ... drives the counter to any
    value up to [62^7]. *)
Lemma counter_reachable (n : N) :
  (n ≤ 62 ^ 7)%N →
  ∃ s, reachable s ∧ URLDatabase.counter (db s) = n
    ∧ (∀ u c, URLDatabase.url_to_code (db s) !! u = Some c →
        ∃ i, (i ≤ n)%N ∧ u = url_of i ∧ c = code_of i)
    ∧ (n ≠ 0%N → URLDatabase.url_to_code (db s) !! url_of n = Some (code_of n)).
Proof.
  induction n as [|n IH] using N.peano_ind; intros Hn.
  - exists (__init__ 1000). split; [apply reachable_init|]. split; [done|].
    split; [|done]. intros u c. simpl. by rewrite lookup_empty.
  - destruct IH as (s & Hr & Hcnt & Hall & _); [lia|].
    pose proof (Inv_reachable _ Hr) as I.
    assert (Hfresh : ∀ m, (n < m)%N →
              URLDatabase.code_to_url (db s) !! code_of m = None).
    { intros m Hm. destruct (_ !! code_of m) as [u|] eqn:E; [|done]. exfalso.
      apply (inv_bij s I) in E. apply Hall in E as (i & Hi & _ & Heq%code_of_inj). lia. }
    assert (Hnew : URLDatabase.url_to_code (db s) !! url_of (N.succ n) = None).
    { destruct (_ !! url_of _) as [c|] eqn:E; [|done]. exfalso.
      apply Hall in E as (i & Hi & Heq%url_of_inj & _). lia. }
    destruct (create_short_url_total (S (size (URLDatabase.code_to_url (db s)))) 0 0 s
                (url_of (N.succ n)) None None I) as (s' & r & Hcr); [lia|].
    destruct (create_short_url_cases _ _ _ _ _ _ _ _ _ I Hcr)
      as [[_ [[_ Hv]|[(c & _ & _ & ?)|[(c & _ & ? & _)|(c & _ & ? & _)]]]]
         |(code & -> & _ & Hcreated & _ & Hg)]; try congruence.
    { rewrite url_of_valid in Hv by done. done. }
    destruct (Hg eq_refl) as (s1 & Eg & Ecnt).
    pose proof (_generate_code_Some _ _ _ _ Eg) as ([Hlt _] & Hcode & _ & Hm & _).
    assert (Hs1 : URLDatabase.counter (db s1) = N.succ n).
    { destruct (decide (URLDatabase.counter (db s1) = N.succ n)) as [|Hne]; [done|].
      specialize (Hm (N.succ n) ltac:(lia)). rewrite Hfresh in Hm by lia. discriminate Hm. }
    exists s'. split; [|split; [|split]].
    + eapply reachable_step; [done|]. by eapply step_create.
    + congruence.
    + intros u c. rewrite (cr_url_to_code _ _ _ _ _ _ Hcreated).
      destruct (decide (u = url_of (N.succ n))) as [->|Hne].
      * rewrite lookup_insert_eq. intros [= <-]. exists (N.succ n).
        split; [lia|]. split; [done|]. by rewrite Hcode, Hs1.
      * rewrite lookup_insert_ne by done. intros (i & ? & ? & ?)%Hall.
        exists i. split; [lia|done].
    + intros _. rewrite (cr_url_to_code _ _ _ _ _ _ Hcreated), lookup_insert_eq.
      by rewrite Hcode, Hs1.
Qed.

Lemma late_code_reachable :
  ∃ s, reachable s
    ∧ (fst <$> _generate_code 1 s 7) = Some "10000000"%string.
Proof.
  destruct (counter_reachable (62 ^ 7 - 1)) as (s & Hr & Hcnt & Hall & _); [lia|].
  exists s. split; [done|]. pose proof (Inv_reachable _ Hr) as I.
  cbn [_generate_code]. cbn [db URLDatabase.bump_counter URLDatabase.counter].
  rewrite Hcnt. change (rjust 7 "0" (_encode_base62 (62 ^ 7 - 1 + 1))) with "10000000"%string.
  unfold URLDatabase.get_url.
  change (URLDatabase.code_to_url (URLDatabase.bump_counter (db s)))
    with (URLDatabase.code_to_url (db s)).
  destruct (URLDatabase.code_to_url (db s) !! "10000000"%string) as [u|] eqn:E; [|reflexivity].
  exfalso. apply (inv_bij s I) in E. apply Hall in E as (i & Hi & _ & Heq).
  change "10000000"%string with (code_of (62 ^ 7)) in Heq. apply code_of_inj in Heq. lia.
Qed.
(** From sequence number [62^7] on, generated codes have 8 characters:
    on a store whose counter is [62^7 - 1], and in a state that calls of
    [create_short_url] lead to. *)
Lemma generated_code_length_counterexample :
  (fst <$> _generate_code 1 late_store 7) = Some "10000000"%string
  ∧ String.length "10000000" = 8
  ∧ (snd <$> create_short_url 1 0 0 late_store "https://example.com/a" None None)
    = Some (true, "10000000"%string)
  ∧ ∃ s, reachable s ∧ (fst <$> _generate_code 1 s 7) = Some "10000000"%string.
Proof.
  split; [vm_compute; reflexivity|]. split; [reflexivity|].
  split; [vm_compute; reflexivity|]. apply late_code_reachable.
Qed.

(** After [62^7] URLs were shortened, the store holds the generated code
    "10000000" and no URL outside the family [url_of]. *)
Lemma late_code_bound :
  ∃ s, reachable s
    ∧ URLDatabase.get_url (db s) "10000000" = Some (url_of (62 ^ 7))
    ∧ ∀ u, URLDatabase.get_code (db s) u ≠ None → ∃ i, u = url_of i.
Proof.
  destruct (counter_reachable (62 ^ 7)) as (s & Hr & _ & Hall & Hlast); [lia|].
  exists s. split; [done|]. pose proof (Inv_reachable _ Hr) as I. split.
  - unfold URLDatabase.get_url. apply (inv_bij s I).
    change "10000000"%string with (code_of (62 ^ 7)). by apply Hlast.
  - intros u Hu. unfold URLDatabase.get_code in Hu.
    destruct (URLDatabase.url_to_code (db s) !! u) as [c|] eqn:E; [|done].
    apply Hall in E as (i & _ & -> & _). by exists i.
Qed.

(** C6, as worded, fails: the 8-character code "10000000", generated for
    the [62^7]-th URL, is bound in a reachable state; asking for it as the
    custom code of another valid URL that has no code yet is answered with
    "Invalid custom code", not with "Custom code already in use". *)
Lemma custom_code_collision_counterexample :
  ∃ s url0,
    reachable s
    ∧ URLDatabase.get_url (db s) "10000000" = Some url0
    ∧ url0 ≠ "https://example.com/x"%string
    ∧ _is_valid_url "https://example.com/x" = true
    ∧ URLDatabase.get_code (db s) "https://example.com/x" = None
    ∧ create_short_url 1 0 0 s "https://example.com/x" (Some "10000000"%string) None
      = Some (s, (false, "Invalid custom code"%string)).
Proof.
  destruct late_code_bound as (s & Hr & Hget & Hfam).
  assert (Hx : ∀ i, "https://example.com/x"%string ≠ url_of i).
  { intros i. unfold url_of. simpl. discriminate. }
  assert (Hnone : URLDatabase.get_code (db s) "https://example.com/x" = None).
  { destruct (URLDatabase.get_code (db s) "https://example.com/x") as [c|] eqn:E; [|done].
    destruct (Hfam "https://example.com/x") as [i Hi]; [by rewrite E|]. by apply Hx in Hi. }
  exists s, (url_of (62 ^ 7)). split; [done|]. split; [done|].
  split; [intros H; by apply (Hx (62 ^ 7)%N)|].
  split; [vm_compute; reflexivity|]. split; [done|].
  unfold create_short_url.
  change (_is_valid_url "https://example.com/x") with true. rewrite Hnone.
  reflexivity.
Qed.
End late.

(** ** More on base-62 codes *)

Section base62_digits.
Import URLShortener.





(** The most significant digit the loop produces is not [0]. *)
Lemma _encode_loop_last fuel num res :
  num ≠ 0%N → (num < 2 ^ N.of_nat fuel)%N →
  ∃ c, last (_encode_loop fuel num res) = Some c ∧ digit c ≠ 0%N.
Proof.
  revert num res. induction fuel as [|fuel IH]; intros num res Hn Hf.
  - simpl in Hf. lia.
  - rewrite _encode_loop_S by done.
    destruct (decide (num / 62 = 0)%N) as [Hz|Hnz].
    + rewrite Hz, _encode_loop_0, last_snoc. eexists. split; [done|].
      rewrite digit_charset_at by (apply N.mod_lt; lia).
      apply N.div_small_iff in Hz; [|lia]. rewrite N.mod_small by done. done.
    + apply IH; [done|]. by apply div62_lt_pow2.
Qed.


End base62_digits.

Section base62_round_trip.
Import URLShortener.






End base62_round_trip.

Section base62_extras.
Import URLShortener.

(** X1.  [_encode_base62] loses nothing: reading its digits back in base 62
    gives the number, so two different numbers never get the same
    encoding. *)
Theorem encode_base62_round_trip (n : N) :
  decode (_encode_base62 n) = n
  ∧ ∀ m, _encode_base62 n = _encode_base62 m → n = m.
Proof.
  split; [apply decode_encode|].
  intros m H. by rewrite <- (decode_encode n), H, decode_encode.
Qed.

(** X2.  For [k >= 1], the encoding of [n] has at most [k] characters
    exactly when [n < 62^k]. *)
Theorem encode_base62_length (n : N) (k : nat) :
  1 ≤ k → (n < 62 ^ N.of_nat k)%N ↔ String.length (_encode_base62 n) ≤ k.
Proof.
  intros Hk. split.
  - intros Hn. by apply _encode_base62_length_upper.
  - intros Hl. destruct (N.lt_ge_cases n (62 ^ N.of_nat k)) as [|Hge]; [done|].
    pose proof (_encode_base62_length_lower n k Hge). lia.
Qed.

Lemma encode_base62_length_witness :
  (3843 < 62 ^ N.of_nat 2)%N ↔ String.length (_encode_base62 3843) ≤ 2.
Proof. apply (encode_base62_length 3843 2). lia. Defined.

(** X3.  The encoding is canonical: 0 is encoded as "0", and the encoding
    of any other number starts with an alphabet character other than
    "0". *)
Theorem encode_base62_canonical :
  _encode_base62 0 = "0"%string
  ∧ ∀ n, n ≠ 0%N →
      ∃ c rest, _encode_base62 n = String c rest ∧ c ≠ "0"%char
        ∧ char_in c charset = true.
Proof.
  split; [reflexivity|]. intros n Hn. unfold _encode_base62.
  destruct (N.eqb_spec n 0); [done|].
  destruct (_encode_loop_last (N.size_nat n) n [] Hn (size_nat_bound n)) as (c & Hc & Hd).
  pose proof (_encode_loop_chars (N.size_nat n) n [] (Forall_nil_2 _)) as Hall.
  apply last_Some in Hc as [l' Hl'].
  assert (Hin : char_in c charset = true).
  { rewrite Forall_forall in Hall. apply Hall. rewrite Hl'.
    apply elem_of_app. right. left. }
  rewrite Hl', rev_app_distr. change (rev [c] ++ rev l') with (c :: rev l').
  cbn [String.string_of_list_ascii]. eexists _, _. split; [reflexivity|].
  split; [|done]. intros ->. by apply Hd.
Qed.



(** X5.  The padded encoding of [n], as [_generate_code] builds it, passes
    [_is_valid_code] exactly when [n < 62^7]. *)
Theorem generated_code_valid_iff (n : N) :
  _is_valid_code (rjust 7 "0" (_encode_base62 n)) = true ↔ (n < 62 ^ 7)%N.
Proof.
  fold (code_of n). rewrite code_of_length_7. unfold _is_valid_code. split.
  - intros H. destruct (Nat.eqb_spec (String.length (code_of n)) 7); [done|].
    simpl in H. done.
  - intros ->. simpl. apply code_of_chars.
Qed.
End base62_extras.

(** ** Reachable caches *)

Section reachable_caches.
Import LRUCache.
Implicit Types (c : t) (l : list (nat * (string * string))).

Lemma length_remove_key k (kvs : list (string * string)) :
  length (remove_key k kvs) ≤ length kvs.
Proof. apply length_filter. Qed.

Lemma length_lru_put cap (kvs : list (string * string)) k v :
  (Z.of_nat (length kvs) ≤ Z.max 0 cap)%Z →
  (Z.of_nat (length (lru_put cap kvs k v)) ≤ Z.max 0 cap)%Z.
Proof.
  intros H. unfold lru_put. cbv zeta.
  pose proof (length_remove_key k kvs).
  destruct (Z.ltb_spec cap (Z.of_nat (length ((k, v) :: remove_key k kvs)))) as [Hlt|Hge].
  - rewrite length_take. simpl in *. lia.
  - simpl in *. lia.
Qed.

Lemma length_lru_get (kvs : list (string * string)) k :
  NoDup kvs.*1 → length (lru_get kvs k).1 = length kvs.
Proof.
  intros ND. destruct (decide (k ∈ kvs.*1)) as [Hin|Hnin].
  - apply list_elem_of_fmap in Hin as ([k' v] & -> & Hkv).
    apply list_elem_of_lookup_1 in Hkv as [j Hj]. cbn [fst].
    rewrite (lru_get_hit kvs j k' v ND Hj). cbn [fst]. cbn [length].
    rewrite length_delete by eauto. apply lookup_lt_Some in Hj. lia.
  - by rewrite (lru_get_miss _ _ Hnin).
Qed.

(** A reachable cache represents a list of entries no longer than its
    capacity allows. *)
Lemma cache_reachable_Rep c :
  cache_reachable c →
  ∃ l, Rep c l ∧ (Z.of_nat (length l) ≤ Z.max 0 (capacity c))%Z.
Proof.
  induction 1 as [cap|c k c' res _ (l & R & Hlen) Hget|c k v c' _ (l & R & Hlen) Hput].
  - exists []. split; [apply Rep_init|]. simpl. lia.
  - destruct (get_spec c l k R) as (c1 & l1 & res1 & E & R1 & Hcap & Hspec).
    rewrite Hget in E. injection E as <- <-.
    exists l1. split; [done|]. rewrite Hcap.
    assert (length l1 = length l); [|lia].
    rewrite <- (length_fmap snd l1), <- (length_fmap snd l).
    replace (l1.*2) with (lru_get l.*2 k).1 by by rewrite <- Hspec.
    apply length_lru_get. by eapply Rep_keys_NoDup.
  - destruct (put_spec c l k v R) as (c1 & l1 & E & R1 & Hcap & Hspec).
    rewrite Hput in E. injection E as <-.
    exists l1. split; [done|]. rewrite Hcap.
    rewrite <- (length_fmap snd l1), Hspec. apply length_lru_put.
    by rewrite length_fmap.
Qed.

Lemma peek_to_list c l k v : Rep c l → peek c k = Some v ↔ (k, v) ∈ to_list c.
Proof. intros R. rewrite (to_list_Wf c l (rep_wf _ _ R)). by apply peek_Rep. Qed.
End reachable_caches.

Section lru_extras.
Import LRUCache.

Lemma cache_reachable_cache_a : cache_reachable cache_a.
Proof.
  apply (cache_reachable_put (__init__ 2) "a" "1"); [apply cache_reachable_init|].
  vm_compute. reflexivity.
Qed.

Lemma cache_reachable_cache_ab : cache_reachable cache_ab.
Proof.
  apply (cache_reachable_put cache_a "b" "2"); [apply cache_reachable_cache_a|].
  vm_compute. reflexivity.
Qed.

(** X6.  In every cache that calls of [get] and [put] lead to from a new
    one, the dictionary and the linked list agree: the list has no key
    twice, the dictionary has exactly the list's keys and as many entries as
    the list has nodes, the node the dictionary gives for a key holds the
    value the list has for it, and [get] and [put] find every node they
    follow. *)
Theorem lru_index_matches_list c :
  cache_reachable c →
  NoDup (keys c)
  ∧ dom (cache c) = list_to_set (keys c)
  ∧ size (cache c) = length (keys c)
  ∧ (∀ key value, peek c key = Some value ↔ (key, value) ∈ to_list c)
  ∧ (∀ key, is_Some (get c key))
  ∧ (∀ key value, is_Some (put c key value)).
Proof.
  intros (l & R & _)%cache_reachable_Rep.
  rewrite (keys_Rep c l R). split; [by eapply Rep_keys_NoDup|].
  split; [by apply dom_Rep|]. split; [by rewrite (rep_size _ _ R), !length_fmap|].
  split; [intros k v; by apply (peek_to_list c l)|]. split.
  - intros k. destruct (get_spec c l k R) as (c' & l' & res & -> & _). by eexists.
  - intros k v. destruct (put_spec c l k v R) as (c' & l' & -> & _). by eexists.
Qed.

Lemma lru_index_matches_list_witness :
  size (cache (__init__ 3)) = length (keys (__init__ 3)).
Proof. apply (lru_index_matches_list (__init__ 3)). apply cache_reachable_init. Defined.

(** X7.  On such a cache, [get] and [put] act on the list of entries as
    the list functions [lru_get] and [lru_put] do, and keep the
    capacity. *)
Theorem lru_refines_list c :
  cache_reachable c →
  (∀ key c' res, get c key = Some (c', res) →
     (to_list c', res) = lru_get (to_list c) key ∧ capacity c' = capacity c)
  ∧ (∀ key value c', put c key value = Some c' →
       to_list c' = lru_put (capacity c) (to_list c) key value
       ∧ capacity c' = capacity c).
Proof.
  intros (l & R & _)%cache_reachable_Rep.
  rewrite (to_list_Wf c l (rep_wf _ _ R)). split.
  - intros k c' res Hget.
    destruct (get_spec c l k R) as (c1 & l1 & res1 & E & R1 & Hcap & Hspec).
    rewrite Hget in E. injection E as <- <-.
    by rewrite (to_list_Wf c' l1 (rep_wf _ _ R1)).
  - intros k v c' Hput.
    destruct (put_spec c l k v R) as (c1 & l1 & E & R1 & Hcap & Hspec).
    rewrite Hput in E. injection E as <-.
    by rewrite (to_list_Wf c' l1 (rep_wf _ _ R1)).
Qed.

Lemma lru_refines_list_witness :
  to_list cache_ab = lru_put (capacity cache_a) (to_list cache_a) "b" "2"
  ∧ capacity cache_ab = capacity cache_a.
Proof.
  destruct (lru_refines_list cache_a cache_reachable_cache_a) as [_ H].
  apply H. vm_compute. reflexivity.
Defined.

(** X8.  Such a cache never holds more entries than its capacity; with a
    capacity of 0 or less it stays empty and every [get] misses. *)
Theorem lru_size_bound c :
  cache_reachable c →
  (Z.of_nat (size (cache c)) ≤ Z.max 0 (capacity c))%Z
  ∧ ((capacity c ≤ 0)%Z →
       to_list c = [] ∧ cache c = ∅ ∧ ∀ key, get c key = Some (c, None)).
Proof.
  intros (l & R & Hlen)%cache_reachable_Rep.
  split; [by rewrite (rep_size _ _ R)|].
  intros Hcap. assert (l = []) as -> by (destruct l; [done|simpl in Hlen; lia]).
  assert (Hempty : cache c = ∅).
  { apply map_size_empty_inv. by rewrite (rep_size _ _ R). }
  split; [by rewrite (to_list_Wf c [] (rep_wf _ _ R))|]. split; [done|].
  intros k. apply get_miss. by rewrite Hempty, lookup_empty.
Qed.

Lemma put_then_get c key value c' :
  cache_reachable c → (1 ≤ capacity c)%Z →
  put c key value = Some c' →
  ∃ c'', get c' key = Some (c'', Some value) ∧ to_list c'' = to_list c'.
Proof.
  intros Hr Hcap Hput.
  destruct (cache_reachable_Rep c Hr) as (l & R & Hlen).
  destruct (put_spec c l key value R) as (c1 & l1 & E & R1 & Hcap1 & Hspec).
  rewrite Hput in E. injection E as <-.
  assert (Hhead : ∃ rest, l1.*2 = (key, value) :: rest).
  { rewrite Hspec. unfold lru_put. cbv zeta.
    destruct (_ <? _)%Z eqn:Hlt; [|by eexists].
    apply Z.ltb_lt in Hlt. simpl length in *.
    destruct (remove_key key l.*2) as [|e rest]; [simpl in Hlt; lia|].
    simpl. by eexists. }
  destruct Hhead as [rest Hl1].
  destruct (get_spec c' l1 key R1) as (c2 & l2 & res & Eg & R2 & _ & Hg).
  assert (Hlg : lru_get l1.*2 key = (l1.*2, Some value)).
  { rewrite (lru_get_hit l1.*2 0 key value).
    - by rewrite Hl1.
    - by eapply Rep_keys_NoDup.
    - by rewrite Hl1. }
  rewrite Hlg in Hg. injection Hg as Hl2 ->.
  exists c2. split; [done|].
  by rewrite (to_list_Wf c2 l2 (rep_wf _ _ R2)), (to_list_Wf c' l1 (rep_wf _ _ R1)).
Qed.

(** X9.  With a capacity of at least 1, a [get] right after [put key value]
    returns [value] and leaves the order of the list as it is. *)
Theorem lru_put_get c key value c' :
  cache_reachable c → (1 ≤ capacity c)%Z →
  put c key value = Some c' →
  ∃ c'', get c' key = Some (c'', Some value) ∧ to_list c'' = to_list c'.
Proof. apply put_then_get. Qed.

Lemma lru_put_get_witness :
  ∃ c'', get cache_ab "b" = Some (c'', Some "2"%string) ∧ to_list c'' = to_list cache_ab.
Proof.
  apply (lru_put_get cache_a "b" "2" cache_ab).
  - apply cache_reachable_cache_a.
  - vm_compute. discriminate.
  - vm_compute. reflexivity.
Defined.

Lemma lru_size_bound_witness :
  (Z.of_nat (size (cache cache_ab)) ≤ Z.max 0 (capacity cache_ab))%Z.
Proof. apply (lru_size_bound cache_ab). apply cache_reachable_cache_ab. Defined.

(** X10.  [get] returns what the dictionary holds for the key, and changes
    neither the dictionary, nor the capacity, nor the value of any key. *)
Theorem lru_get_keeps_contents c key c' res :
  cache_reachable c → get c key = Some (c', res) →
  res = peek c key
  ∧ cache c' = cache c
  ∧ capacity c' = capacity c
  ∧ ∀ key', peek c' key' = peek c key'.
Proof.
  intros (l & R & _)%cache_reachable_Rep Hget.
  destruct (cache c !! key) as [x|] eqn:Hk.
  - destruct (Rep_cache_Some _ _ _ _ R Hk) as (j & v & Hj).
    destruct (get_hit _ _ _ _ _ _ R Hj) as (c1 & E & R1 & Hcap & Hcache).
    rewrite Hget in E. injection E as <- ->.
    assert (Hperm : ∀ e, e ∈ ((x, (key, v)) :: delete j l).*2 ↔ e ∈ l.*2).
    { intros e. by rewrite (delete_Permutation l j _ Hj) at 2. }
    assert (Hpeek : ∀ k' v', peek c' k' = Some v' ↔ peek c k' = Some v').
    { intros k' v'. by rewrite (peek_Rep _ _ _ _ R1), (peek_Rep _ _ _ _ R), Hperm. }
    split; [|split; [done|split; [done|]]].
    + symmetry. apply (peek_Rep _ _ _ _ R). apply list_elem_of_fmap.
      exists (x, (key, v)). split; [done|]. by eapply list_elem_of_lookup_2.
    + intros k'. apply option_eq. intros v'. apply Hpeek.
  - rewrite (get_miss c key Hk) in Hget. injection Hget as <- <-.
    split; [|done]. unfold peek. by rewrite Hk.
Qed.

Lemma lru_get_keeps_contents_witness :
  (snd <$> get cache_ab "a") = Some (peek cache_ab "a").
Proof.
  destruct (get cache_ab "a") as [[c' res]|] eqn:E; [|by vm_compute in E].
  simpl. f_equal.
  by destruct (lru_get_keeps_contents cache_ab "a" c' res cache_reachable_cache_ab E).
Defined.

(** X11.  [put key value] gives no other key a value it did not have. *)
Theorem lru_put_other_keys c key value c' :
  cache_reachable c → put c key value = Some c' →
  ∀ key' value', key' ≠ key →
    peek c' key' = Some value' → peek c key' = Some value'.
Proof.
  intros (l & R & _)%cache_reachable_Rep Hput k' v' Hne.
  destruct (put_spec c l key value R) as (c1 & l1 & E & R1 & _ & Hspec).
  rewrite Hput in E. injection E as <-.
  rewrite (peek_Rep _ _ _ _ R1), (peek_Rep _ _ _ _ R), Hspec.
  intros [[= ? _]|?]%lru_put_elem; done.
Qed.

Lemma lru_put_other_keys_witness : peek cache_a "a" = Some "1"%string.
Proof.
  apply (lru_put_other_keys cache_a "b" "2" cache_ab).
  - apply cache_reachable_cache_a.
  - vm_compute. reflexivity.
  - discriminate.
  - vm_compute. reflexivity.
Defined.
End lru_extras.

(** ** The shortener's cache *)

Section shortener_cache.
Import URLShortener.

Lemma step_cache_reachable s s' :
  step s s' → cache_reachable (cache s) → cache_reachable (cache s').
Proof.
  intros [fuel t1 t2 s0 url cc ed s1 r H|now s0 code s1 r H|]; [| |done]; intros Hr.
  - unfold create_short_url in H.
    destruct (negb _); [by simplify_eq|].
    destruct (truthy_str (URLDatabase.get_code _ _)); [by simplify_eq|].
    destruct (truthy_str cc).
    + destruct (negb _); [by simplify_eq|]. destruct (truthy_str _); [by simplify_eq|].
      destruct (LRUCache.put _ _ _) eqn:Ep; simpl in H; [|done]. simplify_eq. simpl.
      by eapply cache_reachable_put.
    + destruct (_generate_code fuel s0 7) as [[code s2]|] eqn:Eg; [|done].
      pose proof (_generate_code_Some _ _ _ _ Eg) as (_ & _ & _ & _ & _ & _ & _ & E4).
      destruct (LRUCache.put _ _ _) eqn:Ep; simpl in H; [|done]. simplify_eq. simpl.
      rewrite E4 in Ep. by eapply cache_reachable_put.
  - unfold get_long_url in H.
    destruct (LRUCache.get _ _) as [[c1 res]|] eqn:Eg; simpl in H; [|done].
    assert (Hr1 : cache_reachable c1) by by eapply cache_reachable_get.
    destruct (truthy_str res); [by simplify_eq|].
    destruct (negb _); [by simplify_eq|].
    destruct (URLDatabase.get_stats _ _); simpl in H; [|done].
    destruct (truthy_int _ && _); [by simplify_eq|].
    destruct (LRUCache.put _ _ _) eqn:Ep; simpl in H; [|done]. simplify_eq. simpl.
    by eapply cache_reachable_put.
Qed.

Lemma cache_reachable_capacity c :
  cache_reachable c →
  (∀ k c' res, LRUCache.get c k = Some (c', res) → LRUCache.capacity c' = LRUCache.capacity c)
  ∧ (∀ k v c', LRUCache.put c k v = Some c' → LRUCache.capacity c' = LRUCache.capacity c).
Proof.
  intros (l & R & _)%cache_reachable_Rep. split.
  - intros k c' res H. destruct (get_spec c l k R) as (c1 & l1 & res1 & E & _ & Hcap & _).
    rewrite H in E. by injection E as <- <-.
  - intros k v c' H. destruct (put_spec c l k v R) as (c1 & l1 & E & _ & Hcap & _).
    rewrite H in E. by injection E as <-.
Qed.

Lemma step_capacity s s' :
  step s s' → cache_reachable (cache s) →
  LRUCache.capacity (cache s') = LRUCache.capacity (cache s).
Proof.
  intros [fuel t1 t2 s0 url cc ed s1 r H|now s0 code s1 r H|]; [| |done]; intros Hr.
  - destruct (cache_reachable_capacity _ Hr) as [_ Hput].
    unfold create_short_url in H.
    destruct (negb _); [by simplify_eq|].
    destruct (truthy_str (URLDatabase.get_code _ _)); [by simplify_eq|].
    destruct (truthy_str cc).
    + destruct (negb _); [by simplify_eq|]. destruct (truthy_str _); [by simplify_eq|].
      destruct (LRUCache.put _ _ _) eqn:Ep; simpl in H; [|done]. simplify_eq. simpl.
      by eapply Hput.
    + destruct (_generate_code fuel s0 7) as [[code s2]|] eqn:Eg; [|done].
      pose proof (_generate_code_Some _ _ _ _ Eg) as (_ & _ & _ & _ & _ & _ & _ & E4).
      destruct (LRUCache.put _ _ _) eqn:Ep; simpl in H; [|done]. simplify_eq. simpl.
      rewrite E4 in Ep. by eapply Hput.
  - destruct (cache_reachable_capacity _ Hr) as [Hget _].
    unfold get_long_url in H.
    destruct (LRUCache.get _ _) as [[c1 res]|] eqn:Eg; simpl in H; [|done].
    assert (Hr1 : cache_reachable c1) by by eapply cache_reachable_get.
    pose proof (Hget _ _ _ Eg) as Hc1.
    destruct (cache_reachable_capacity _ Hr1) as [_ Hput].
    destruct (truthy_str res); [by simplify_eq|].
    destruct (negb _); [by simplify_eq|].
    destruct (URLDatabase.get_stats _ _); simpl in H; [|done].
    destruct (truthy_int _ && _); [by simplify_eq|].
    destruct (LRUCache.put _ _ _) eqn:Ep; simpl in H; [|done]. simplify_eq. simpl.
    rewrite <- Hc1. by eapply Hput.
Qed.

Lemma rtc_cache_reachable s s' :
  rtc step s s' → cache_reachable (cache s) →
  cache_reachable (cache s')
  ∧ LRUCache.capacity (cache s') = LRUCache.capacity (cache s).
Proof.
  induction 1 as [|s1 s2 s3 H _ IH]; intros Hr; [done|].
  destruct (IH (step_cache_reachable _ _ H Hr)) as [? ->].
  split; [done|]. by apply step_capacity.
Qed.

(** X12.  Whatever calls are made on a shortener created with
    [cache_size], its cache keeps that capacity, is a cache that [get] and
    [put] lead to from a new one, and holds at most [cache_size] entries,
    as many as its list has nodes. *)
Theorem shortener_cache_bounded cache_size s :
  rtc step (__init__ cache_size) s →
  LRUCache.capacity (cache s) = cache_size
  ∧ cache_reachable (cache s)
  ∧ (Z.of_nat (size (LRUCache.cache (cache s))) ≤ Z.max 0 cache_size)%Z
  ∧ length (LRUCache.to_list (cache s)) = size (LRUCache.cache (cache s)).
Proof.
  intros H. destruct (rtc_cache_reachable _ _ H) as [Hr Hcap].
  { apply cache_reachable_init. }
  simpl in Hcap. split; [done|]. split; [done|].
  destruct (cache_reachable_Rep _ Hr) as (l & R & Hlen).
  rewrite (rep_size _ _ R), (to_list_Wf _ _ (rep_wf _ _ R)), length_fmap, <- Hcap.
  done.
Qed.

Lemma rtc_demo_ab : rtc step (__init__ 1) demo_ab.
Proof.
  etrans; [apply (step_after_create 1 0)|apply (step_after_create 1 10)].
Qed.

Lemma shortener_cache_bounded_witness :
  (Z.of_nat (size (LRUCache.cache (cache demo_ab))) ≤ Z.max 0 1)%Z.
Proof. apply (shortener_cache_bounded 1 demo_ab). apply rtc_demo_ab. Defined.
End shortener_cache.

(** ** More on the public operations *)

Section engine_extras.
Import URLShortener.

Lemma reachable_cache_reachable s : reachable s → cache_reachable (cache s).
Proof.
  intros [cs H]. apply (rtc_cache_reachable _ _ H). apply cache_reachable_init.
Qed.

(** X13.  The loop of [_generate_code] ends: with more rounds than the
    store has codes it returns a code the store does not hold, after at most
    one step of the counter more than the store has codes; further rounds
    change nothing. *)
Theorem generate_code_terminates fuel s :
  size (URLDatabase.code_to_url (db s)) < fuel →
  ∃ code s1,
    _generate_code fuel s 7 = Some (code, s1)
    ∧ (URLDatabase.counter (db s1)
       ≤ URLDatabase.counter (db s)
         + N.of_nat (size (URLDatabase.code_to_url (db s))) + 1)%N
    ∧ truthy_str (URLDatabase.get_url (db s) code) = false
    ∧ ∀ fuel', fuel ≤ fuel' → _generate_code fuel' s 7 = Some (code, s1).
Proof.
  intros Hf.
  destruct (_generate_code_terminates (S (size (URLDatabase.code_to_url (db s)))) s)
    as [[code s1] E0]; [lia|].
  pose proof (_generate_code_Some _ _ _ _ E0) as ([_ Hle] & _ & Hfree & _).
  exists code, s1. split; [|split; [lia|split; [done|]]].
  - eapply _generate_code_fuel_mono; [|done]. lia.
  - intros fuel' Hle'. eapply _generate_code_fuel_mono; [|done]. lia.
Qed.

Lemma generate_code_terminates_witness :
  ∃ code s1, _generate_code 1 (__init__ 1) 7 = Some (code, s1)
    ∧ truthy_str (URLDatabase.get_url (db (__init__ 1)) code) = false.
Proof.
  destruct (generate_code_terminates 1 (__init__ 1)) as (code & s1 & H1 & _ & H2 & _).
  - change (URLDatabase.code_to_url (db (__init__ 1))) with (∅ : gmap string string).
    rewrite map_size_empty. lia.
  - by exists code, s1.
Defined.

(** X14.  A failing [create_short_url] changes nothing, and fails with
    one of three messages. *)
Theorem create_short_url_failure fuel now_expiry now_store s long_url custom_code
    expiry_days s' msg :
  create_short_url fuel now_expiry now_store s long_url custom_code expiry_days
    = Some (s', (false, msg)) →
  s' = s
  ∧ (msg = "Invalid URL format"%string
     ∨ msg = "Invalid custom code"%string
     ∨ msg = "Custom code already in use"%string).
Proof.
  unfold create_short_url.
  destruct (negb _); [intros [= <- <-]; by eauto|].
  destruct (truthy_str (URLDatabase.get_code _ _)); [done|].
  destruct (truthy_str custom_code).
  - destruct (negb _); [intros [= <- <-]; by eauto|].
    destruct (truthy_str _); [intros [= <- <-]; by eauto|].
    by destruct (LRUCache.put _ _ _).
  - destruct (_generate_code fuel s 7) as [[code s1]|]; [|done].
    by destruct (LRUCache.put _ _ _).
Qed.

Lemma create_short_url_failure_witness :
  demo_ab = demo_ab
  ∧ ("Invalid URL format"%string = "Invalid URL format"%string
     ∨ "Invalid URL format"%string = "Invalid custom code"%string
     ∨ "Invalid URL format"%string = "Custom code already in use"%string).
Proof.
  apply (create_short_url_failure 1 0 0 demo_ab "not-a-url" None None).
  vm_compute. reflexivity.
Defined.

(** X15.  In a reachable state no operation raises: [get_long_url] returns
    for every code, and [create_short_url] returns for all arguments (its
    generation loop given more rounds than the store has codes). *)
Theorem operations_never_raise s :
  reachable s →
  (∀ now short_code, is_Some (get_long_url now s short_code))
  ∧ (∀ fuel now_expiry now_store long_url custom_code expiry_days,
       size (URLDatabase.code_to_url (db s)) < fuel →
       is_Some (create_short_url fuel now_expiry now_store s long_url custom_code
                  expiry_days)).
Proof.
  intros I%Inv_reachable. split.
  - intros now code. destruct (get_long_url_total now s code I) as (s' & r & ->).
    by eexists.
  - intros fuel t1 t2 url cc ed Hf.
    destruct (create_short_url_total fuel t1 t2 s url cc ed I Hf) as (s' & r & ->).
    by eexists.
Qed.

Lemma operations_never_raise_witness :
  is_Some (get_long_url 5 demo_ab "nosuchcode").
Proof. apply (operations_never_raise demo_ab). apply reachable_demo_ab. Defined.

(** X16.  After a successful [create_short_url] the store maps the
    returned code to the long URL and the long URL to the code, the URL is a
    valid one, the code is not empty, and [get_url_stats] finds the
    record. *)
Theorem create_then_lookup fuel now_expiry now_store s long_url custom_code
    expiry_days s' code :
  reachable s →
  create_short_url fuel now_expiry now_store s long_url custom_code expiry_days
    = Some (s', (true, code)) →
  URLDatabase.get_url (db s') code = Some long_url
  ∧ URLDatabase.get_code (db s') long_url = Some code
  ∧ _is_valid_url long_url = true
  ∧ code ≠ EmptyString
  ∧ ∃ st, get_url_stats s' code = (true, inl st).
Proof.
  intros Hr Hcr. pose proof (Inv_reachable _ Hr) as I.
  pose proof (Inv_create _ _ _ _ _ _ _ _ _ I Hcr) as I'.
  assert (H : URLDatabase.url_to_code (db s') !! long_url = Some code
              ∧ _is_valid_url long_url = true).
  { destruct (create_short_url_cases _ _ _ _ _ _ _ _ _ I Hcr)
      as [[-> [[? _]|[(c & [= <-] & ? & ?)|[(c & ? & _)|(c & ? & _)]]]]
         |(c & [= <-] & Hv & Hcreated & _)]; try done.
    split; [|done]. rewrite (cr_url_to_code _ _ _ _ _ _ Hcreated).
    by rewrite lookup_insert_eq. }
  destruct H as [Hu Hv]. pose proof Hu as Hc%(inv_bij s' I').
  split; [done|]. split; [done|]. split; [done|].
  split; [by apply (inv_valid s' I') in Hu as [_ ?]|].
  destruct (inv_stats s' I' code) as [_ [st Hst]]; [by eauto|].
  exists st. unfold get_url_stats, URLDatabase.get_stats. by rewrite Hst.
Qed.

Lemma create_then_lookup_witness :
  URLDatabase.get_url (db demo_a) "0000001" = Some "https://example.com/a"%string.
Proof.
  apply (create_then_lookup 1 0 0 (__init__ 1) "https://example.com/a" None (Some 1%Z)
           demo_a "0000001").
  - apply reachable_init.
  - vm_compute. reflexivity.
Defined.

(** X17.  With a cache of capacity at least 1, resolving the code that
    [create_short_url] has just created for a new URL succeeds at any later
    time, also after its expiry time (the entry is served from the cache),
    and leaves the record with one visit. *)
Theorem create_then_resolve fuel now_expiry now_store s long_url custom_code
    expiry_days s' code now :
  reachable s → (1 ≤ LRUCache.capacity (cache s))%Z →
  URLDatabase.get_code (db s) long_url = None →
  create_short_url fuel now_expiry now_store s long_url custom_code expiry_days
    = Some (s', (true, code)) →
  ∃ s'', get_long_url now s' code = Some (s'', (true, long_url))
    ∧ URLDatabase.get_stats (db s'') code
      = Some (URLDatabase.mkStats now_store (expiry_of now_expiry expiry_days) 1).
Proof.
  intros Hr Hcap Hu Hcr. pose proof (Inv_reachable _ Hr) as I.
  unfold URLDatabase.get_code in Hu.
  destruct (create_short_url_cases _ _ _ _ _ _ _ _ _ I Hcr)
    as [[_ [[? _]|[(c & _ & _ & ?)|[(c & ? & _)|(c & ? & _)]]]]
       |(c & [= <-] & Hv & Hcreated & _)]; try congruence.
  destruct (put_then_get _ _ _ _ (reachable_cache_reachable _ Hr) Hcap
              (cr_cache _ _ _ _ _ _ Hcreated)) as (c'' & Hget & _).
  pose proof (_is_valid_url_nonempty _ Hv) as Hne.
  eexists. unfold get_long_url. rewrite Hget.
  destruct long_url as [|a rest]; [done|]. cbn [truthy_str].
  split; [done|]. cbn [db]. unfold URLDatabase.get_stats.
  rewrite increment_visits_stats, (cr_stats _ _ _ _ _ _ Hcreated), lookup_insert_eq.
  simpl. by rewrite decide_True.
Qed.

Lemma create_then_resolve_witness :
  ∃ s'', get_long_url 1000000 demo_a "0000001"
         = Some (s'', (true, "https://example.com/a"%string))
    ∧ URLDatabase.get_stats (db s'') "0000001"
      = Some (URLDatabase.mkStats 0 (expiry_of 0 (Some 1%Z)) 1).
Proof.
  apply (create_then_resolve 1 0 0 (__init__ 1) "https://example.com/a" None (Some 1%Z)
           demo_a "0000001" 1000000).
  - apply reachable_init.
  - vm_compute. discriminate.
  - vm_compute. reflexivity.
  - vm_compute. reflexivity.
Defined.
End engine_extras.

(** ** Records and statistics over time *)

Section records.
Import URLShortener.

Lemma record_persists_refl st : record_persists st st.
Proof. split; [done|]. split; [done|]. lia. Qed.

Lemma record_persists_trans st1 st2 st3 :
  record_persists st1 st2 → record_persists st2 st3 → record_persists st1 st3.
Proof.
  intros (? & ? & ?) (? & ? & ?). split; [congruence|]. split; [congruence|]. lia.
Qed.

Lemma step_record_visits s s' c u st :
  Inv s → step s s' →
  URLDatabase.code_to_url (db s) !! c = Some u →
  URLDatabase.stats (db s) !! c = Some st →
  URLDatabase.code_to_url (db s') !! c = Some u
  ∧ ∃ st', URLDatabase.stats (db s') !! c = Some st' ∧ record_persists st st'.
Proof.
  pose proof (record_persists_refl st) as Hrefl.
  intros I Hstep. revert I.
  destruct Hstep as [fuel t1 t2 s0 url cc ed s1 r H|now s0 code s1 r H|];
    intros I Hc Hs; [| |by eauto].
  - destruct (create_short_url_cases _ _ _ _ _ _ _ _ _ I H)
      as [[-> _]|(code & _ & _ & [_ Hfc _ _ Ec Es _ _] & _)]; [by eauto|].
    assert (c ≠ code) by congruence.
    rewrite Ec, Es, !lookup_insert_ne by done. by eauto.
  - destruct (get_long_url_cases _ _ _ _ _ I H) as (_ & _ & _ & _ & _ & Hcases).
    assert (Hdb : db s1 = db s0 ∨ db s1 = URLDatabase.increment_visits (db s0) code).
    { destruct Hcases as [(v & _ & _ & ->)|[(_ & _ & [(_ & _ & ->)|(u' & st' & _ & _ & _ & _ & ->)])
        |(_ & u' & st' & _ & _ & _ & _ & -> & _)]]; eauto. }
    destruct Hdb as [-> | ->]; [by eauto|].
    destruct (increment_visits_tables (db s0) code) as (_ & -> & _).
    split; [done|]. rewrite increment_visits_stats, Hs. simpl.
    eexists. split; [done|]. case_decide; [|done].
    split; [done|]. split; [done|]. simpl. lia.
Qed.

Lemma rtc_record_visits s s' c u st :
  Inv s → rtc step s s' →
  URLDatabase.code_to_url (db s) !! c = Some u →
  URLDatabase.stats (db s) !! c = Some st →
  URLDatabase.code_to_url (db s') !! c = Some u
  ∧ ∃ st', URLDatabase.stats (db s') !! c = Some st' ∧ record_persists st st'.
Proof.
  intros I H. revert u st I. induction H as [|s1 s2 s3 H _ IH]; intros u st I Hc Hs.
  - split; [done|]. exists st. split; [done|]. apply record_persists_refl.
  - destruct (step_record_visits _ _ _ _ _ I H Hc Hs) as (Hc2 & st2 & Hs2 & P2).
    destruct (IH u st2 (Inv_step _ _ I H) Hc2 Hs2) as (Hc3 & st3 & Hs3 & P3).
    split; [done|]. exists st3. split; [done|]. by eapply record_persists_trans.
Qed.

(** X18.  No call removes or rebinds a record: a code bound in a reachable
    state stays bound to the same URL after any further calls, with the same
    creation and expiry times and a visit count that has not gone down. *)
Theorem record_is_permanent s s' short_code long_url st :
  reachable s → rtc step s s' →
  URLDatabase.get_url (db s) short_code = Some long_url →
  URLDatabase.get_stats (db s) short_code = Some st →
  URLDatabase.get_url (db s') short_code = Some long_url
  ∧ URLDatabase.get_code (db s') long_url = Some short_code
  ∧ ∃ st', URLDatabase.get_stats (db s') short_code = Some st'
      ∧ URLDatabase.created_at st' = URLDatabase.created_at st
      ∧ URLDatabase.expires_at st' = URLDatabase.expires_at st
      ∧ (URLDatabase.visit_count st ≤ URLDatabase.visit_count st')%Z.
Proof.
  intros I%Inv_reachable Hsteps Hc Hs.
  destruct (rtc_record_visits _ _ _ _ _ I Hsteps Hc Hs) as (Hc' & st' & Hs' & P).
  split; [done|]. split; [by apply (inv_bij s' (Inv_rtc _ _ I Hsteps))|].
  by exists st'.
Qed.

Lemma record_is_permanent_witness :
  URLDatabase.get_url (db demo_ab) "0000001" = Some "https://example.com/a"%string.
Proof.
  apply (record_is_permanent demo_a demo_ab "0000001" "https://example.com/a"
           (URLDatabase.mkStats 0 (Some 86400%Z) 0)).
  - apply reachable_demo_a.
  - apply step_after_create.
  - vm_compute. reflexivity.
  - vm_compute. reflexivity.
Defined.

(** X19.  What [get_long_url] does to the state: a failing call changes
    nothing; a successful one returns the URL the store holds for the code,
    adds one visit to that code's record and leaves every other record as it
    was. *)
Theorem get_long_url_effect now s short_code s' ok msg :
  reachable s →
  get_long_url now s short_code = Some (s', (ok, msg)) →
  (ok = false → s' = s)
  ∧ (ok = true →
       URLDatabase.get_url (db s) short_code = Some msg
       ∧ db s' = URLDatabase.increment_visits (db s) short_code
       ∧ (∃ st, URLDatabase.get_stats (db s) short_code = Some st
            ∧ URLDatabase.get_stats (db s') short_code
              = Some (URLDatabase.mkStats (URLDatabase.created_at st)
                        (URLDatabase.expires_at st) (URLDatabase.visit_count st + 1)))
       ∧ ∀ other, other ≠ short_code →
           URLDatabase.get_stats (db s') other = URLDatabase.get_stats (db s) other).
Proof.
  intros I%Inv_reachable H.
  destruct (get_long_url_cases _ _ _ _ _ I H) as (l & l' & R & R' & _ & Hcases).
  destruct (inv_cache s I) as (l0 & R0 & Hcoh).
  assert (Hinc : ∀ u, URLDatabase.code_to_url (db s) !! short_code = Some u →
            (∃ st, URLDatabase.get_stats (db s) short_code = Some st
               ∧ URLDatabase.get_stats (URLDatabase.increment_visits (db s) short_code)
                   short_code
                 = Some (URLDatabase.mkStats (URLDatabase.created_at st)
                           (URLDatabase.expires_at st) (URLDatabase.visit_count st + 1)))
            ∧ ∀ other, other ≠ short_code →
                URLDatabase.get_stats (URLDatabase.increment_visits (db s) short_code) other
                = URLDatabase.get_stats (db s) other).
  { intros u Hu. split.
    - destruct (inv_stats s I short_code) as [_ [st Hst]]; [by eauto|].
      exists st. split; [done|]. unfold URLDatabase.get_stats.
      rewrite increment_visits_stats, Hst. simpl. by rewrite decide_True.
    - intros other Hne. unfold URLDatabase.get_stats. rewrite increment_visits_stats.
      destruct (URLDatabase.stats (db s) !! other); [|done]. simpl.
      by rewrite decide_False. }
  destruct Hcases as [(v & Hpeek & [= Hok Hmsg] & Edb)
    |[(_ & Ecache & [(_ & [= Hok Hmsg] & Edb)|(u & st & _ & _ & _ & [= Hok Hmsg] & Edb)])
     |(_ & u & st & Hu & _ & _ & [= Hok Hmsg] & Edb & _)]]; subst ok msg.
  - split; [done|]. intros _.
    assert (Hu : URLDatabase.code_to_url (db s) !! short_code = Some v).
    { apply Hcoh. apply (peek_Rep _ _ _ _ R0). exact Hpeek. }
    rewrite Edb. split; [exact Hu|]. split; [done|]. by apply (Hinc v).
  - split; [|done]. intros _. destruct s, s'. simpl in *. congruence.
  - split; [|done]. intros _. destruct s, s'. simpl in *. congruence.
  - split; [done|]. intros _. rewrite Edb. split; [exact Hu|]. split; [done|].
    by apply (Hinc u).
Qed.

Lemma get_long_url_effect_witness :
  URLDatabase.get_url (db demo_a) "0000001" = Some "https://example.com/a"%string.
Proof.
  destruct (get_long_url 7 demo_a "0000001") as [[s' [ok msg]]|] eqn:E;
    [|by vm_compute in E].
  assert (Hr : (snd <$> get_long_url 7 demo_a "0000001")
               = Some (true, "https://example.com/a"%string)) by (vm_compute; reflexivity).
  rewrite E in Hr. injection Hr as -> ->.
  destruct (get_long_url_effect 7 demo_a "0000001" s' true "https://example.com/a"
              reachable_demo_a E) as [_ H].
  by destruct (H eq_refl) as [? _].
Defined.

(** X20.  In a reachable state "URL not found" is returned, by
    [get_url_stats] and by [get_long_url], exactly for the codes the store
    does not hold; for the others [get_url_stats] returns the record. *)
Theorem not_found_iff_absent s short_code :
  reachable s →
  (get_url_stats s short_code = (false, inr "URL not found"%string)
   ↔ URLDatabase.get_url (db s) short_code = None)
  ∧ (∀ long_url, URLDatabase.get_url (db s) short_code = Some long_url →
       ∃ st, get_url_stats s short_code = (true, inl st))
  ∧ (∀ now s' r, get_long_url now s short_code = Some (s', r) →
       r = (false, "URL not found"%string)
       ↔ URLDatabase.get_url (db s) short_code = None).
Proof.
  intros I%Inv_reachable. unfold get_url_stats, URLDatabase.get_stats, URLDatabase.get_url.
  pose proof (inv_stats s I short_code) as Hst. split; [|split].
  - destruct (URLDatabase.stats (db s) !! short_code) as [st|] eqn:E.
    + split; [done|]. intros Hn. rewrite Hn in Hst.
      destruct Hst as [[? ?] _]; [by eauto|done].
    + split; [|done]. intros _.
      destruct (URLDatabase.code_to_url (db s) !! short_code) eqn:E'; [|done].
      destruct Hst as [_ [? ?]]; [by eauto|done].
  - intros u Hu. destruct Hst as [_ [st Hs]]; [by eauto|]. rewrite Hs. by eexists.
  - intros now s' r H.
    destruct (inv_cache s I) as (l0 & R0 & Hcoh).
    destruct (get_long_url_cases _ _ _ _ _ I H) as (l & l' & R & R' & _ & Hcases).
    destruct Hcases as [(v & Hpeek & -> & _)
      |[(_ & _ & [(Hn & -> & _)|(u & st & Hu & _ & _ & -> & _)])
       |(_ & u & st & Hu & _ & _ & -> & _)]].
    + split; [done|]. intros Hn.
      assert (URLDatabase.code_to_url (db s) !! short_code = Some v); [|congruence].
      apply Hcoh. by apply (peek_Rep _ _ _ _ R0).
    + done.
    + split; [done|congruence].
    + split; [done|congruence].
Qed.

Lemma not_found_iff_absent_witness :
  get_url_stats demo_ab "zzzzzzz" = (false, inr "URL not found"%string).
Proof.
  destruct (not_found_iff_absent demo_ab "zzzzzzz" reachable_demo_ab) as [H _].
  apply H. vm_compute. reflexivity.
Defined.
End records.

(** ** [store] on its own *)

Section store.
Import URLDatabase.

(** X21.  [store] on a code that is already bound to another URL rebinds
    the code but leaves the old URL's entry in [url_to_code], so both URLs
    then have the code; the statistics are reset and the counter is
    unchanged.  ([create_short_url] never calls [store] this way.) *)
Theorem store_overwrite_keeps_old_url (self : t) now short_code old_url new_url expiry :
  get_code self old_url = Some short_code →
  old_url ≠ new_url →
  let self' := store self now short_code new_url expiry in
  get_url self' short_code = Some new_url
  ∧ get_code self' new_url = Some short_code
  ∧ get_code self' old_url = Some short_code
  ∧ get_stats self' short_code = Some (mkStats now expiry 0)
  ∧ counter self' = counter self.
Proof.
  intros Hold Hne. unfold get_url, get_code, get_stats, store. simpl.
  rewrite !lookup_insert_eq. rewrite lookup_insert_ne by done. done.
Qed.

Lemma store_overwrite_keeps_old_url_witness :
  get_code (store (URLShortener.db demo_a) 5 "0000001" "https://example.com/z" None)
    "https://example.com/a" = Some "0000001"%string.
Proof.
  apply (store_overwrite_keeps_old_url (URLShortener.db demo_a) 5 "0000001"
           "https://example.com/a" "https://example.com/z" None).
  - vm_compute. reflexivity.
  - discriminate.
Defined.
End store.
